(** * Quote widget: reconciliation of the local quote store with a remote source

    Shallow embedding of [dom-manipulation/script.js] (the variant with
    [mergeWithServer] and [doSync]) and of the earlier variant that carries
    [syncWithServer].  The global [quotes] array is threaded explicitly; calls
    to [localStorage] and to the page are recorded in an effect trace. *)

From Stdlib Require Import Ascii String NArith.
From stdpp Require Import gmap strings list.

Local Open Scope string_scope.
Local Open Scope list_scope.
Local Open Scope nat_scope.

#[local] Set Warnings "-register-all,-clear-no-such-hyp".

(** ** JavaScript strings

    A string is a sequence of code units.  The embedding covers code units
    below 256 (Latin-1), one [ascii] each; [trim] and [toLowerCase] are the
    built-ins restricted to that range. *)

Module JsString.

(** WhiteSpace and LineTerminator code units below 256: TAB, LF, VT, FF, CR,
    SP and NBSP. *)
Definition isWhiteSpace (c : ascii) : bool :=
  let n := N_of_ascii c in
  ((9 <=? n) && (n <=? 13) || (n =? 32) || (n =? 160))%N.

Fixpoint trimStart (s : string) : string :=
  match s with
  | EmptyString => EmptyString
  | String c s' => if isWhiteSpace c then trimStart s' else s
  end.

Fixpoint trimEnd (s : string) : string :=
  match s with
  | EmptyString => EmptyString
  | String c s' =>
      match trimEnd s' with
      | EmptyString => if isWhiteSpace c then EmptyString else String c EmptyString
      | t => String c t
      end
  end.

(** [String.prototype.trim] *)
Definition trim (s : string) : string := trimEnd (trimStart s).

(** Upper-case code units below 256: A-Z, and U+00C0-U+00DE except U+00D7;
    each has its lower-case partner 32 places up. *)
Definition lowerChar (c : ascii) : ascii :=
  let n := N_of_ascii c in
  if ((65 <=? n) && (n <=? 90)
      || (192 <=? n) && (n <=? 222) && negb (n =? 215))%N
  then ascii_of_N (n + 32) else c.

(** [String.prototype.toLowerCase] *)
Fixpoint toLowerCase (s : string) : string :=
  match s with
  | EmptyString => EmptyString
  | String c s' => String (lowerChar c) (toLowerCase s')
  end.

(** Truthiness of a string: only the empty string is falsy. *)
Definition truthy (s : string) : bool :=
  match s with EmptyString => false | _ => true end.

(** [Array.prototype.join(",")] on strings. *)
Fixpoint joinComma (l : list string) : string :=
  match l with
  | [] => ""
  | [x] => x
  | x :: l' => x +:+ "," +:+ joinComma l'
  end.

End JsString.

(** ** JSON values

    What [JSON.parse] and [res.json()] hand to the program.  A number is kept
    as the text [String] prints for it, which identifies it; minus zero prints
    as [0]. *)

Inductive json : Type :=
  | JNull
  | JBool (b : bool)
  | JNum (repr : string)
  | JStr (s : string)
  | JArr (items : list json)
  | JObj (fields : list (string * json)).

Module Json.

(** Truthiness: [null], [false], zero and the empty string are falsy. *)
Definition truthy (v : json) : bool :=
  match v with
  | JNull => false
  | JBool b => b
  | JNum repr => negb (String.eqb repr "0")
  | JStr s => JsString.truthy s
  | JArr _ | JObj _ => true
  end.

(** A later member of an object literal replaces an earlier one of the same
    name. *)
Fixpoint lookupField (name : string) (fields : list (string * json)) : option json :=
  match fields with
  | [] => None
  | (k, v) :: rest =>
      match lookupField name rest with
      | Some v' => Some v'
      | None => if String.eqb k name then Some v else None
      end
  end.

(** [v.name] for a property name that no prototype defines ([text],
    [category], [title], [userId]) and a [v] other than [null]; [None] is
    [undefined]. *)
Definition getProp (name : string) (v : json) : option json :=
  match v with
  | JObj fields => lookupField name fields
  | _ => None
  end.

(** Whether an object has a member of its own with the given name. *)
Definition hasOwn (name : string) (fields : list (string * json)) : bool :=
  match lookupField name fields with Some _ => true | None => false end.

(** [String(v)], which is also how a template literal and a DOM string
    attribute convert [v]; [None] when the conversion throws a [TypeError].
    An object parsed from JSON that has a member named [toString] of its own
    has no callable [toString] left, and [valueOf] gives back the object, so the
    conversion fails; every other object prints as [[object Object]].  An array
    joins the conversions of its elements, [null] printing as nothing. *)
Fixpoint toString (v : json) : option string :=
  match v with
  | JNull => Some "null"
  | JBool true => Some "true"
  | JBool false => Some "false"
  | JNum repr => Some repr
  | JStr s => Some s
  | JArr items =>
      JsString.joinComma <$>
        (fix each (l : list json) : option (list string) :=
           match l with
           | [] => Some []
           | x :: l' =>
               match (match x with JNull => Some "" | _ => toString x end),
                     each l' with
               | Some sx, Some sl => Some (sx :: sl)
               | _, _ => None
               end
           end) items
  | JObj fields =>
      if hasOwn "toString" fields then None else Some "[object Object]"
  end.

(** [String(o)] where [o] may be [undefined]. *)
Definition toStringU (o : option json) : option string :=
  match o with Some v => toString v | None => Some "undefined" end.

(** The values [String] converts without throwing. *)
Fixpoint stringable (v : json) : bool :=
  match v with
  | JArr items => forallb stringable items
  | JObj fields => negb (hasOwn "toString" fields)
  | _ => true
  end.

End Json.

(** ** Quote records *)

(** A quote-like record [{ text, category }].  [C] is the type of values the
    [category] property may hold. *)
Record Quote (C : Type) : Type := mkQuote { text : string; category : C }.
Arguments mkQuote {C} _ _.
Arguments text {C} _.
Arguments category {C} _.

(** Reconciliation works on records whose [category] is a string or absent
    ([None] is [undefined]). *)
Abbreviation quote := (Quote (option string)).

(** [c || 'Uncategorized'] *)
Definition orUncategorized (c : option string) : string :=
  match c with
  | Some s => if JsString.truthy s then s else "Uncategorized"
  | None => "Uncategorized"
  end.

(** [normalizeText(t)] = [String(t || '').trim().toLowerCase()], for a string
    [t]: [t || ''] is [t] itself, and [String] is the identity on strings. *)
Definition normalizeText (t : string) : string :=
  JsString.toLowerCase (JsString.trim t).

(** The join key of a record. *)
Definition key {C} (q : Quote C) : string := normalizeText (text q).

(** The reconciliation summary, [details] in [mergeWithServer]. *)
Record Details : Type := mkDetails {
  added : nat;
  updated : nat;
  conflictsResolved : nat
}.

(** Truthiness of a number: zero is falsy. *)
Definition truthyNum (n : nat) : bool := negb (n =? 0).

(** Calls that leave the function: the persistence gateway and the page. *)
Inductive Effect : Type :=
  | SaveQuotes (snapshot : list quote)
      (* localStorage.setItem(STORAGE_KEY, JSON.stringify(quotes)) *)
  | PopulateCategories (snapshot : list quote)
  | SetLastSync
      (* localStorage.setItem(LAST_SYNC_KEY, now) *)
  | ShowSyncNotification (d : Details)
  | StatusSyncing
  | StatusLastSync (nAdded nUpdated : nat)
  | StatusSyncFailed
  | NotifySync (total conflicts : nat).

(** ** mergeWithServer *)

(** [localMap]: normalized text to the index of a local quote.  The source
    stores [{ q, idx }] where [q] is the very object held at [quotes[idx]];
    no array slot is ever reassigned, so [localEntry.q] is read below as the
    current [quotes[idx]].  [Map.prototype.set] replaces an existing key. *)
Definition buildLocalMap (quotes : list quote) : gmap string nat :=
  foldl (fun m iq => <[key iq.2 := iq.1]> m) ∅ (imap pair quotes).

(** The body of [serverQuotes.forEach(sq => ...)]. *)
Definition applyServerQuote (localMap : gmap string nat)
    (st : list quote * Details) (sq : quote) : list quote * Details :=
  let '(quotes, details) := st in
  let k := normalizeText (text sq) in
  if negb (JsString.truthy k) then st
  else
    match localMap !! k with
    | Some idx =>
        match quotes !! idx with
        | Some q =>
            if decide (orUncategorized (category q) ≠ orUncategorized (category sq))
            then (<[idx := mkQuote (text q) (Some (orUncategorized (category sq)))]> quotes,
                  mkDetails (added details) (updated details + 1)
                            (conflictsResolved details + 1))
            else st
        | None => st   (* never taken: the map holds indices of the store *)
        end
    | None =>
        (quotes ++ [mkQuote (text sq) (Some (orUncategorized (category sq)))],
         mkDetails (added details + 1) (updated details) (conflictsResolved details))
    end.

(** [serverQuotes.forEach] from a given state. *)
Definition mergeLoop (localMap : gmap string nat) (st : list quote * Details)
    (serverQuotes : list quote) : list quote * Details :=
  foldl (applyServerQuote localMap) st serverQuotes.

(** The detached [async] loop of [mergeWithServer] posts the local quotes the
    server lacks; it reads [quotes] and never writes it, nor [localStorage]. *)
Definition localOnly (quotes serverQuotes : list quote) : list quote :=
  filter (fun q => ¬ Exists (fun sq => key sq = key q) serverQuotes) quotes.

Record MergeResult : Type := mkMergeResult {
  store : list quote;
  details : Details;
  effects : list Effect
}.

Definition mergeWithServer (quotes serverQuotes : list quote) : MergeResult :=
  let localMap := buildLocalMap quotes in
  let '(quotes', d) := mergeLoop localMap (quotes, mkDetails 0 0 0) serverQuotes in
  mkMergeResult quotes' d
    (if truthyNum (added d) || truthyNum (updated d)
     then [SaveQuotes quotes'; PopulateCategories quotes'] else []).

(** ** fetchServerQuotes and doSync *)

(** What [fetch] and [res.json()] come back with: the request is rejected, or
    a response arrives with its [ok] flag and a body that parses or not. *)
Inductive FetchOutcome : Type :=
  | FetchRejected
  | FetchResponse (ok : bool) (body : option json).

(** [p => ({ text: String(p.title || '').trim(), category: `Server-${p.userId}` })];
    [None] when the callback throws: reading a property of [null], or a title
    or user id that does not convert to a string. *)
Definition postToQuote (p : json) : option quote :=
  match p with
  | JNull => None
  | _ =>
      match (match Json.getProp "title" p with
             | Some v => if Json.truthy v then Json.toString v else Some ""
             | None => Some ""
             end),
            Json.toStringU (Json.getProp "userId" p) with
      | Some title, Some userId =>
          Some (mkQuote (JsString.trim title) (Some ("Server-" +:+ userId)))
      | _, _ => None
      end
  end.

(** [None] when the function throws: it logs and rethrows whatever its [try]
    block raised.  Only an array has [map]. *)
Definition fetchServerQuotes (o : FetchOutcome) : option (list quote) :=
  match o with
  | FetchRejected => None
  | FetchResponse false _ => None
  | FetchResponse true None => None
  | FetchResponse true (Some (JArr data)) => mapM postToQuote data
  | FetchResponse true (Some _) => None
  end.

Record SyncResult : Type := mkSyncResult {
  syncStore : list quote;
  syncOutcome : option Details;      (* [None] is the [null] of a failed cycle *)
  syncEffects : list Effect
}.

(** [doSync(showNotification)]; [statusEl] tells whether the page has the
    [syncStatus] element. *)
Definition doSync (showNotification statusEl : bool) (quotes : list quote)
    (o : FetchOutcome) : SyncResult :=
  let status e := if statusEl then [e] else [] in
  match fetchServerQuotes o with
  | Some serverQuotes =>
      let r := mergeWithServer quotes serverQuotes in
      let d := details r in
      mkSyncResult (store r) (Some d)
        (status StatusSyncing ++ effects r ++ [SetLastSync]
         ++ status (StatusLastSync (added d) (updated d))
         ++ (if showNotification
                && (truthyNum (added d) || truthyNum (updated d)
                    || truthyNum (conflictsResolved d))
             then [ShowSyncNotification d] else []))
  | None =>
      mkSyncResult quotes None (status StatusSyncing ++ status StatusSyncFailed)
  end.

(** ** loadQuotes *)

(** A stored record keeps whatever truthy JSON value its [category] had. *)
Abbreviation storedQuote := (Quote json).

Inductive Completion : Type := Normal | Throws.

(** The test [q && typeof q.text === 'string'] and the record pushed when it
    passes. *)
Definition storedOf (q : json) : option storedQuote :=
  if Json.truthy q then
    match Json.getProp "text" q with
    | Some (JStr t) =>
        Some (mkQuote t
                (match Json.getProp "category" q with
                 | Some c => if Json.truthy c then c else JStr "Uncategorized"
                 | None => JStr "Uncategorized"
                 end))
    | _ => None
    end
  else None.

(** The body of [parsed.forEach(q => ...)]. *)
Definition loadEntry (quotes : list storedQuote) (q : json) : list storedQuote :=
  match storedOf q with
  | Some x => quotes ++ [x]
  | None => quotes
  end.

(** A [JSON.parse] that is known on one input and rejects every other. *)
Definition parseOnly (src : string) (v : json) : string → option json :=
  fun s => if decide (s = src) then Some v else None.

Section Persistence.

(** [JSON.parse]; [None] when it throws a [SyntaxError]. *)
Variable JSON_parse : string → option json.

(** The [try] block of [loadQuotes]; [raw] is what
    [localStorage.getItem(STORAGE_KEY)] returned. *)
Definition loadQuotesTry (quotes : list storedQuote) (raw : option string)
    : list storedQuote * Completion :=
  match raw with
  | Some r =>
      if JsString.truthy r then
        match JSON_parse r with
        | None => (quotes, Throws)
        | Some (JArr parsed) => (foldl loadEntry [] parsed, Normal)
        | Some _ => (quotes, Normal)
        end
      else (quotes, Normal)
  | None => (quotes, Normal)
  end.

(** [loadQuotes]: the [catch] clause logs the error and the function returns. *)
Definition loadQuotes (quotes : list storedQuote) (raw : option string)
    : list storedQuote * Completion :=
  let '(quotes', _) := loadQuotesTry quotes raw in (quotes', Normal).

End Persistence.

(** ** The earlier variant: exact-text join, no [try] around the load *)

Module Part000.

(** [loadQuotes] without a [try]: an exception of [JSON.parse] leaves the
    function. *)
Definition loadQuotes (JSON_parse : string → option json)
    (quotes : list storedQuote) (raw : option string)
    : list storedQuote * Completion :=
  match raw with
  | None => (quotes, Normal)
  | Some r =>
      if negb (JsString.truthy r) then (quotes, Normal)
      else
        match JSON_parse r with
        | None => (quotes, Throws)
        | Some (JArr parsed) => (foldl loadEntry [] parsed, Normal)
        | Some _ => (quotes, Normal)
        end
  end.

(** [quotes.findIndex(q => q.text === sq.text)]; [None] is [-1]. *)
Fixpoint findIndex (t : string) (quotes : list quote) : option nat :=
  match quotes with
  | [] => None
  | q :: rest => if decide (text q = t) then Some 0 else S <$> findIndex t rest
  end.

(** The body of [serverQuotes.forEach(sq => ...)] in [syncWithServer]. *)
Definition syncStep (st : list quote * nat) (sq : quote) : list quote * nat :=
  let '(quotes, conflicts) := st in
  match findIndex (text sq) quotes with
  | None => (quotes ++ [sq], conflicts)
  | Some index =>
      match quotes !! index with
      | Some q =>
          if decide (category q ≠ category sq)
          then (<[index := sq]> quotes, conflicts + 1)
          else st
      | None => st
      end
  end.

Definition syncWithServer (quotes serverQuotes : list quote)
    : list quote * list Effect :=
  let '(quotes', conflicts) := foldl syncStep (quotes, 0) serverQuotes in
  (quotes', [SaveQuotes quotes'; PopulateCategories quotes';
             NotifySync (length serverQuotes) conflicts]).

End Part000.

(** ** Notions the statements use *)

(** Two records of a snapshot that share a non-empty normalized text agree on
    the category, after defaulting. *)
Definition agree (r1 r2 : quote) : Prop :=
  key r1 = key r2 → key r1 ≠ "" →
  orUncategorized (category r1) = orUncategorized (category r2).

Definition consistent (rs : list quote) : Prop :=
  Forall (fun r1 => Forall (agree r1) rs) rs.

(** The normalized texts a snapshot joins on: the non-empty ones, in order. *)
Definition joinKeys (rs : list quote) : list string :=
  filter (fun k => k ≠ "") (key <$> rs).

(** The store already holds what record [r] asks for: the entry the local map
    has for [r]'s normalized text carries [r]'s category. *)
Definition settled (qs : list quote) (r : quote) : Prop :=
  key r ≠ "" →
  ∃ idx q, buildLocalMap qs !! key r = Some idx ∧ qs !! idx = Some q
           ∧ orUncategorized (category q) = orUncategorized (category r).

(** What one remote record does to the state, case by case. *)
Inductive StepCase (M : gmap string nat) (quotes : list quote) (d : Details)
    (sq : quote) : list quote * Details → Prop :=
  | StepSkip :
      key sq = "" → StepCase M quotes d sq (quotes, d)
  | StepDangling idx :
      key sq ≠ "" → M !! key sq = Some idx → quotes !! idx = None →
      StepCase M quotes d sq (quotes, d)
  | StepSame idx q :
      key sq ≠ "" → M !! key sq = Some idx → quotes !! idx = Some q →
      orUncategorized (category q) = orUncategorized (category sq) →
      StepCase M quotes d sq (quotes, d)
  | StepUpdate idx q :
      key sq ≠ "" → M !! key sq = Some idx → quotes !! idx = Some q →
      orUncategorized (category q) ≠ orUncategorized (category sq) →
      StepCase M quotes d sq
        (<[idx := mkQuote (text q) (Some (orUncategorized (category sq)))]> quotes,
         mkDetails (added d) (updated d + 1) (conflictsResolved d + 1))
  | StepAdd :
      key sq ≠ "" → M !! key sq = None →
      StepCase M quotes d sq
        (quotes ++ [mkQuote (text sq) (Some (orUncategorized (category sq)))],
         mkDetails (added d + 1) (updated d) (conflictsResolved d)).

(** The invariant of a first pass: keys the initial map knows stay where
    they were, and every record processed so far is settled. *)
Definition passInv (qs0 rs : list quote) (st : list quote * Details) : Prop :=
  (∀ k idx, buildLocalMap qs0 !! k = Some idx →
            buildLocalMap st.1 !! k = Some idx)
  ∧ (∀ r, r ∈ rs → settled st.1 r).

(** Sample records. *)
Definition qAX : quote := mkQuote "A" (Some "X").
Definition qAY : quote := mkQuote "A" (Some "Y").
Definition qAZ : quote := mkQuote "A" (Some "Z").
Definition qBY : quote := mkQuote "B" (Some "Y").

From stdpp Require Import sorting.

(** ** Further notions the statements use *)

(** The record [mergeWithServer] pushes for a remote record. *)
Definition pushedRecord (r : quote) : quote :=
  mkQuote (text r) (Some (orUncategorized (category r))).

(** The remote records a pass appends: those with a non-empty normalized text
    that no quote of the store it was given carries. *)
Definition unknownTo (qs rs : list quote) : list quote :=
  filter (fun r => key r ≠ "" ∧ key r ∉ key <$> qs) rs.

(** A post the callback of [fetchServerQuotes] turns into a quote: it is not
    [null], its title converts to a string unless it is falsy, and so does its
    user id unless it is missing. *)
Definition convertiblePost (p : json) : Prop :=
  p ≠ JNull
  ∧ (∀ v, Json.getProp "title" p = Some v → Json.truthy v = true →
          Json.stringable v = true)
  ∧ (∀ v, Json.getProp "userId" p = Some v → Json.stringable v = true).

(** ** Filtering, the category list and the add-quote form *)

(** [getFilteredQuotes(category)] *)
Definition getFilteredQuotes (quotes : list quote) (cat : string) : list quote :=
  if negb (JsString.truthy cat) || String.eqb cat "all" then quotes
  else filter (fun q => orUncategorized (category q) = cat) quotes.

(** [Array.from(new Set(xs))]: the distinct values, each where it first
    occurs. *)
Definition setAdd (s : list string) (x : string) : list string :=
  if decide (x ∈ s) then s else s ++ [x].

Definition setValues (xs : list string) : list string := foldl setAdd [] xs.

(** The order of [Array.prototype.sort] without a comparator: strings by
    their code units. *)
Definition codeUnitLe (a b : string) : Prop := String.leb a b = true.

#[global] Instance codeUnitLe_dec : RelDecision codeUnitLe.
Proof. intros a b. unfold codeUnitLe. apply _. Defined.

(** [cats] in [populateCategories].  The sorted arrangement of distinct
    strings is unique, so any sorting procedure yields it. *)
Definition categoriesOf (quotes : list quote) : list string :=
  merge_sort codeUnitLe
    (setValues ((fun q => orUncategorized (category q)) <$> quotes)).

(** [populateCategories()]: the option values of the select, and the value
    it ends up with; [saved] is [localStorage.getItem(CATEGORY_FILTER_KEY)]. *)
Definition populateCategories (quotes : list quote) (saved : option string)
    : list string * string :=
  let cats := categoriesOf quotes in
  ("all" :: cats,
   match saved with
   | Some s =>
       if JsString.truthy s && (String.eqb s "all" || bool_decide (s ∈ cats))
       then s else "all"
   | None => "all"
   end).

(** [addQuote(event)], with both inputs present: the store, and the quote
    that was pushed if one was.  After a push the function saves, rebuilds the
    category list, selects the new category and calls [filterQuotes]. *)
Definition addQuote (quotes : list quote) (textValue catValue : string)
    : list quote * option quote :=
  let t := JsString.trim textValue in
  let c := if JsString.truthy (JsString.trim catValue)
           then JsString.trim catValue else "Uncategorized" in
  if negb (JsString.truthy t) then (quotes, None)
  else (quotes ++ [mkQuote t (Some c)], Some (mkQuote t (Some c))).

(** ** Import and export *)

(** The value [JSON.stringify(quotes)] writes out, in [saveQuotes] and in
    [exportToJson]: an array of objects with [text] and [category]. *)
Definition quotesToJson (quotes : list storedQuote) : json :=
  JArr ((fun q => JObj [("text", JStr (text q)); ("category", category q)])
          <$> quotes).

(** The elements the [onload] handler of [importFromJsonFile] asks the page
    for: [categoryFilter], [addQuoteFeedback] and [quoteDisplay]. *)
Record Page : Type := mkPage {
  hasSelect : bool;
  hasFeedback : bool;
  hasDisplay : bool
}.

(** What the handler leaves behind. *)
Record ImportResult : Type := mkImportResult {
  importStore : list storedQuote;
  importSaved : bool;             (* [saveQuotes()] ran *)
  importFeedback : option nat;    (* `Imported ${valid.length} quote(s).` was written *)
  importAlert : bool              (* the [catch] clause alerted *)
}.

(** [q.category || 'Uncategorized'] on a record of the store. *)
Definition shownCategory (q : storedQuote) : json :=
  if Json.truthy (category q) then category q else JStr "Uncategorized".

(** [populateCategories()] throws when the select exists and some category
    does not convert to a string: [sort] compares the categories as strings
    and [opt.value = cat] converts each. *)
Definition populateCategoriesThrows (page : Page) (quotes : list storedQuote)
    : bool :=
  hasSelect page
  && negb (forallb (fun q => Json.stringable (shownCategory q)) quotes).

(** [showQuote(text, category)] throws when [quoteDisplay] exists and
    [escapeHtml] cannot convert the category. *)
Definition showQuoteThrows (page : Page) (cat : json) : bool :=
  hasDisplay page && negb (Json.stringable cat).

(** The [onload] handler of [importFromJsonFile]: [valid] holds the entries
    that pass the test of [storedOf], and each is pushed as the record
    [storedOf] builds.  Everything sits in one [try]: what throws after the
    push (rebuilding the category list, showing the last imported quote)
    reaches the [catch] with the entries already in the store and saved. *)
Definition importFromJsonFile (JSON_parse : string → option json) (page : Page)
    (quotes : list storedQuote) (fileText : string) : ImportResult :=
  match JSON_parse fileText with
  | Some (JArr parsed) =>
      let valid := omap storedOf parsed in
      match last valid with
      | None => mkImportResult quotes false None true
      | Some lastQ =>
          let quotes' := quotes ++ valid in
          if populateCategoriesThrows page quotes'
          then mkImportResult quotes' true None true
          else
            let feedback :=
              if hasFeedback page then Some (length valid) else None in
            mkImportResult quotes' true feedback
              (showQuoteThrows page (category lastQ))
      end
  | _ => mkImportResult quotes false None true
  end.

(** ** escapeHtml *)

(** [s.replace(/c/g, by)] for a single character [c]. *)
Fixpoint replaceAll (c : ascii) (by_ : string) (s : string) : string :=
  match s with
  | EmptyString => EmptyString
  | String a s' =>
      if Ascii.eqb a c then by_ +:+ replaceAll c by_ s'
      else String a (replaceAll c by_ s')
  end.

(** [escapeHtml(str)] for a string [str]. *)
Definition escapeHtml (str : string) : string :=
  replaceAll "'" "&#039;"
    (replaceAll "034" "&quot;"
       (replaceAll ">" "&gt;"
          (replaceAll "<" "&lt;"
             (replaceAll "&" "&amp;" str)))).

(** What one character becomes. *)
Definition escapeChar (a : ascii) : string :=
  if Ascii.eqb a "&" then "&amp;"
  else if Ascii.eqb a "<" then "&lt;"
  else if Ascii.eqb a ">" then "&gt;"
  else if Ascii.eqb a "034" then "&quot;"
  else if Ascii.eqb a "'" then "&#039;"
  else String a EmptyString.

Fixpoint escapeEach (s : string) : string :=
  match s with
  | EmptyString => EmptyString
  | String a s' => escapeChar a +:+ escapeEach s'
  end.

(** The characters of a string. *)
Fixpoint chars (s : string) : list ascii :=
  match s with
  | EmptyString => []
  | String a s' => a :: chars s'
  end.

(** The characters that open or close markup or an attribute value. *)
Definition markup (a : ascii) : Prop :=
  a = "<"%char ∨ a = ">"%char ∨ a = "034"%char ∨ a = "'"%char.

(** ** The sync scheduler *)

(** [syncTimerId], and the handle [setInterval] will return next: handles are
    integers greater than zero, so a handle is always truthy. *)
Record Scheduler : Type := mkScheduler {
  syncTimerId : option positive;
  timerCounter : positive
}.

Definition SYNC_INTERVAL_MS : N := 60 * 1000.

Inductive TimerEffect : Type :=
  | SetInterval (id : positive) (intervalMs : N)   (* each tick calls doSync(false) *)
  | ClearInterval (id : positive)
  | ImmediateSync                                    (* doSync() *)
  | AutoSyncButton (label : string)
  | StatusStopped                                    (* 'Auto sync stopped' *)
  | ImmediateCheck.                                  (* checkForServerUpdates() *)

(** [startSync(intervalMs)] *)
Definition startSync (intervalMs : N) (s : Scheduler)
    : Scheduler * list TimerEffect :=
  match syncTimerId s with
  | Some _ => (s, [])
  | None =>
      (mkScheduler (Some (timerCounter s)) (Pos.succ (timerCounter s)),
       [SetInterval (timerCounter s) intervalMs; ImmediateSync;
        AutoSyncButton "Stop Auto Sync"])
  end.

(** [stopSync()] *)
Definition stopSync (s : Scheduler) : Scheduler * list TimerEffect :=
  match syncTimerId s with
  | None => (s, [])
  | Some id =>
      (mkScheduler None (timerCounter s),
       [ClearInterval id; AutoSyncButton "Start Auto Sync"; StatusStopped])
  end.

(** The click handler of the auto-sync button. *)
Definition autoSyncClick (s : Scheduler) : Scheduler * list TimerEffect :=
  match syncTimerId s with
  | Some _ => stopSync s
  | None => startSync SYNC_INTERVAL_MS s
  end.

Inductive SyncCall : Type :=
  | CallStart (intervalMs : N)
  | CallStop
  | ClickAuto.

Definition syncCall (c : SyncCall) (s : Scheduler) : Scheduler * list TimerEffect :=
  match c with
  | CallStart intervalMs => startSync intervalMs s
  | CallStop => stopSync s
  | ClickAuto => autoSyncClick s
  end.

(** A sequence of calls, with everything they did. *)
Fixpoint syncCalls (cs : list SyncCall) (s : Scheduler)
    : Scheduler * list TimerEffect :=
  match cs with
  | [] => (s, [])
  | c :: cs' =>
      let '(s1, es1) := syncCall c s in
      let '(s2, es2) := syncCalls cs' s1 in
      (s2, es1 ++ es2)
  end.

(** The interval timers that are running after a trace, given those running
    before it. *)
Fixpoint liveTimers (es : list TimerEffect) (live : list positive) : list positive :=
  match es with
  | [] => live
  | SetInterval id _ :: es' => liveTimers es' (live ++ [id])
  | ClearInterval id :: es' => liveTimers es' (filter (fun x => x ≠ id) live)
  | _ :: es' => liveTimers es' live
  end.

(** The two timers of the variant with a simulated server, and the handle
    [setInterval] will return next. *)
Record PeriodicState : Type := mkPeriodicState {
  syncIntervalId : option positive;
  serverUpdateIntervalId : option positive;
  nextHandle : positive
}.

(** [startPeriodicSync(intervalMs)] *)
Definition startPeriodicSync (intervalMs : N) (s : PeriodicState)
    : PeriodicState * list TimerEffect :=
  let h1 := nextHandle s in
  let h2 := Pos.succ h1 in
  (mkPeriodicState (Some h1) (Some h2) (Pos.succ h2),
   match syncIntervalId s with Some id => [ClearInterval id] | None => [] end
   ++ [SetInterval h1 intervalMs]
   ++ match serverUpdateIntervalId s with Some id => [ClearInterval id] | None => [] end
   ++ [SetInterval h2 45000; ImmediateCheck]).

(** Repeated calls, with everything they did. *)
Fixpoint periodicCalls (ms : list N) (s : PeriodicState)
    : PeriodicState * list TimerEffect :=
  match ms with
  | [] => (s, [])
  | intervalMs :: ms' =>
      let '(s1, es1) := startPeriodicSync intervalMs s in
      let '(s2, es2) := periodicCalls ms' s1 in
      (s2, es1 ++ es2)
  end.

(** ** The variant with a simulated server *)

Module Simulated.

(** A [Map] keyed by text, as the list of its entries in insertion order;
    setting a key that is present replaces the value where it stands. *)
Fixpoint mapSet (k : string) (v : quote) (m : list (string * quote))
    : list (string * quote) :=
  match m with
  | [] => [(k, v)]
  | (k', v') :: m' =>
      if decide (k' = k) then (k, v) :: m' else (k', v') :: mapSet k v m'
  end.

Fixpoint mapGet (k : string) (m : list (string * quote)) : option quote :=
  match m with
  | [] => None
  | (k', v) :: m' => if decide (k' = k) then Some v else mapGet k m'
  end.

(** [new Map(qs.map(q => [q.text, q]))] *)
Definition byText (qs : list quote) : list (string * quote) :=
  foldl (fun m q => mapSet (text q) q m) [] qs.

(** [{ text: sq.text, category: sq.category || 'Uncategorized' }] *)
Definition serverRecord (sq : quote) : quote :=
  mkQuote (text sq) (Some (orUncategorized (category sq))).

(** The body of [serverMap.forEach((sq, text) => ...)] in
    [applyServerChanges]; [findIndex] is the one of the earlier variant,
    [quotes.findIndex(q => q.text === text)]. *)
Definition applyEntry (localMap : list (string * quote)) (quotes : list quote)
    (e : string * quote) : list quote :=
  let '(t, sq) := e in
  match mapGet t localMap with
  | Some _ =>
      match Part000.findIndex t quotes with
      | Some idx => <[idx := serverRecord sq]> quotes
      | None => quotes
      end
  | None => quotes ++ [serverRecord sq]
  end.

(** [applyServerChanges(serverData)]: the store it leaves.  It then saves
    the store, rebuilds the category list and shows a quote. *)
Definition applyServerChanges (quotes serverData : list quote) : list quote :=
  foldl (applyEntry (byText quotes)) quotes (byText serverData).

(** The body of [serverMap.forEach] in [checkForServerUpdates], on
    [(newOnServer, changedOnServer)]. *)
Definition compareEntry (localMap : list (string * quote))
    (acc : list quote * list (quote * quote)) (e : string * quote)
    : list quote * list (quote * quote) :=
  let '(t, sq) := e in
  match mapGet t localMap with
  | None => (acc.1 ++ [sq], acc.2)
  | Some local =>
      if decide (orUncategorized (category local) ≠ orUncategorized (category sq))
      then (acc.1, acc.2 ++ [(local, sq)])
      else acc
  end.

(** [checkForServerUpdates()] once the data has arrived: what is new on the
    server and what has changed there.  The status reads 'Up to date' when
    both lists are empty. *)
Definition checkForServerUpdates (quotes serverData : list quote)
    : list quote * list (quote * quote) :=
  foldl (compareEntry (byText quotes)) ([], []) (byText serverData).

(** [simulatedServer.post(quotesArray)]: the server's quotes afterwards. *)
Definition post (serverQuotes quotesArray : list quote) : list quote :=
  snd <$> foldl (fun m q =>
                   match mapGet (text q) m with
                   | Some _ => m
                   | None => mapSet (text q) (serverRecord q) m
                   end)
                (byText serverQuotes) quotesArray.

End Simulated.

(** A store in which record [sq] finds, under its exact text, an entry that
    satisfies [good]. *)
Definition textSettled (good : quote → Prop) (t : string) (store : list quote) : Prop :=
  ∃ idx q, Part000.findIndex t store = Some idx ∧ store !! idx = Some q ∧ good q.

(** ** Tactics for lists that are written out *)

(** ** The same text, as the specification words it

    Two texts are the same when, each stripped of the white space around it,
    they agree letter by letter up to case.  These notions are stated on the
    strings themselves; that [normalizeText] computes a key for exactly this
    relation is a theorem. *)

(** The white-space and line-terminator code units below 256: TAB, LF, VT, FF,
    CR, SP and NBSP. *)
Definition whiteSpaceUnits : list ascii :=
  ["009"; "010"; "011"; "012"; "013"; " "; "160"]%char.

(** A string of white space only. *)
Fixpoint blank (s : string) : Prop :=
  match s with
  | EmptyString => True
  | String c s' => c ∈ whiteSpaceUnits ∧ blank s'
  end.

(** [core] is [s] without the white space around it: [s] is [core] between
    two blank strings, and [core] neither begins nor ends with white space. *)
Definition trimmedTo (s core : string) : Prop :=
  (∃ pad1 pad2, s = pad1 +:+ core +:+ pad2 ∧ blank pad1 ∧ blank pad2)
  ∧ (∀ c rest, core = String c rest → c ∉ whiteSpaceUnits)
  ∧ (∀ init c, core = init +:+ String c EmptyString → c ∉ whiteSpaceUnits).

(** [up] is an upper-case letter, A to Z or U+00C0 to U+00DE without the
    multiplication sign U+00D7, and [lo] is the same letter in lower case, 32
    code units further on. *)
Definition upperOf (lo up : ascii) : Prop :=
  let u := N_of_ascii up in
  ((65 ≤ u ≤ 90) ∨ (192 ≤ u ≤ 222 ∧ u ≠ 215))%N
  ∧ N_of_ascii lo = (u + 32)%N.

Definition sameLetter (a b : ascii) : Prop :=
  a = b ∨ upperOf a b ∨ upperOf b a.

Fixpoint sameUpToCase (s t : string) : Prop :=
  match s, t with
  | EmptyString, EmptyString => True
  | String a s', String b t' => sameLetter a b ∧ sameUpToCase s' t'
  | _, _ => False
  end.

Definition sameText (s t : string) : Prop :=
  ∃ cs ct, trimmedTo s cs ∧ trimmedTo t ct ∧ sameUpToCase cs ct.

(** Membership in a list that is written out. *)
Ltac in_list := repeat first [by left | right].
Ltac in_concrete H :=
  cbn in H;
  repeat match type of H with
         | _ ∈ _ :: _ => apply elem_of_cons in H as [H|H]; [try discriminate|]
         | _ ∈ [] => by apply elem_of_nil in H
         end;
  try (split; [done|]); try (eexists; split; [done|cbn; lia]);
  try (eexists; by in_list).

(** Membership in the characters of a string that is written out. *)
Ltac in_chars H :=
  cbn in H;
  repeat match type of H with
         | _ ∈ _ :: _ => apply elem_of_cons in H as [->|H]
         | _ ∈ [] => by apply elem_of_nil in H
         end;
  intros [?|[?|[?|?]]]; discriminate.
Ltac in_chars_all H :=
  cbn in H;
  repeat match type of H with
         | _ ∈ _ :: _ => apply elem_of_cons in H as [->|H]
         | _ ∈ [] => by apply elem_of_nil in H
         end;
  (split; [intros [?|[?|[?|?]]]; discriminate|discriminate]).


(** ** Facts about the local map *)

Section LocalMap.

Implicit Types (quotes qs : list quote) (q sq : quote) (k : string).

Lemma buildLocalMap_snoc qs q :
  buildLocalMap (qs ++ [q]) = <[key q := length qs]> (buildLocalMap qs).
Proof.
  unfold buildLocalMap.
  rewrite imap_app, foldl_app. simpl.
  by rewrite Nat.add_0_r.
Qed.

(** The map sends a key to the last index that carries it. *)
Lemma buildLocalMap_lookup qs k idx :
  buildLocalMap qs !! k = Some idx ↔
  (key <$> qs) !! idx = Some k ∧ (∀ j, (key <$> qs) !! j = Some k → j ≤ idx).
Proof.
  revert idx. induction qs as [|q qs IH] using rev_ind; intros idx.
  - unfold buildLocalMap. simpl. rewrite lookup_empty.
    split; [done|]. by intros [? _].
  - rewrite buildLocalMap_snoc, fmap_app. simpl.
    destruct (decide (key q = k)) as [<-|Hne].
    + rewrite lookup_insert_eq. split.
      * intros [= <-]. split.
        -- rewrite lookup_app_r by (rewrite length_fmap; lia).
           by rewrite length_fmap, Nat.sub_diag.
        -- intros j Hj. apply lookup_lt_Some in Hj.
           rewrite length_app, length_fmap in Hj. simpl in Hj. lia.
      * intros [Hidx Hmax]. f_equal.
        apply lookup_lt_Some in Hidx.
        rewrite length_app, length_fmap in Hidx. simpl in Hidx.
        assert (length qs ≤ idx); [|lia].
        apply Hmax. rewrite lookup_app_r by (rewrite length_fmap; lia).
        by rewrite length_fmap, Nat.sub_diag.
    + rewrite lookup_insert_ne by done. rewrite IH.
      assert (Hlast : ∀ j, ((key <$> qs) ++ [key q]) !! j = Some k ↔
                           (key <$> qs) !! j = Some k).
      { intros j. destruct (decide (j < length (key <$> qs))) as [Hlt|Hge].
        - by rewrite lookup_app_l.
        - rewrite lookup_app_r by lia.
          rewrite (lookup_ge_None_2 (key <$> qs) j) by lia.
          destruct (j - length (key <$> qs)) as [|n]; simpl;
            [|rewrite lookup_nil]; (split; [congruence|done]). }
      rewrite Hlast. by setoid_rewrite Hlast.
Qed.

Lemma buildLocalMap_keys qs qs' :
  key <$> qs = key <$> qs' → buildLocalMap qs = buildLocalMap qs'.
Proof.
  intros Hk. apply map_eq. intros k. apply option_eq. intros idx.
  by rewrite !buildLocalMap_lookup, Hk.
Qed.

Lemma buildLocalMap_entry qs k idx :
  buildLocalMap qs !! k = Some idx → ∃ q, qs !! idx = Some q ∧ key q = k.
Proof.
  rewrite buildLocalMap_lookup. intros [Hidx _].
  rewrite list_lookup_fmap in Hidx.
  destruct (qs !! idx) as [q|]; simplify_eq/=. eauto.
Qed.

Lemma buildLocalMap_is_Some qs k :
  is_Some (buildLocalMap qs !! k) ↔ ∃ q, q ∈ qs ∧ key q = k.
Proof.
  induction qs as [|q qs IH] using rev_ind.
  - unfold buildLocalMap. simpl. rewrite lookup_empty.
    split; [by intros [? ?]|]. intros (q & Hq & _). by apply elem_of_nil in Hq.
  - rewrite buildLocalMap_snoc.
    destruct (decide (key q = k)) as [<-|Hne].
    + rewrite lookup_insert_eq. split; [|eauto].
      intros _. exists q. split; [|done]. apply elem_of_app. right. by left.
    + rewrite lookup_insert_ne by done. rewrite IH. split.
      * intros (q' & Hq' & Hk). exists q'. split; [|done].
        apply elem_of_app. by left.
      * intros (q' & Hq' & Hk). exists q'. split; [|done].
        apply elem_of_app in Hq' as [?|Hq']; [done|].
        apply list_elem_of_singleton in Hq'. congruence.
Qed.

(** Writing a category into a slot keeps the keys, hence the map. *)
Lemma keys_set_category qs idx q c :
  qs !! idx = Some q → key <$> <[idx := mkQuote (text q) c]> qs = key <$> qs.
Proof.
  intros Hq. rewrite list_fmap_insert. apply list_insert_id.
  by rewrite list_lookup_fmap, Hq.
Qed.

End LocalMap.

(** ** Facts about one pass *)

Section MergePass.

Implicit Types (quotes qs rs : list quote) (q sq : quote) (d : Details)
  (M : gmap string nat) (st : list quote * Details).

Lemma mergeWithServer_eq qs rs :
  mergeWithServer qs rs =
  let st := mergeLoop (buildLocalMap qs) (qs, mkDetails 0 0 0) rs in
  mkMergeResult st.1 st.2
    (if truthyNum (added st.2) || truthyNum (updated st.2)
     then [SaveQuotes st.1; PopulateCategories st.1] else []).
Proof.
  unfold mergeWithServer.
  by destruct (mergeLoop _ _ _) as [quotes' d].
Qed.

Lemma truthy_key_nonempty k : JsString.truthy k = true ↔ k ≠ "".
Proof. destruct k; simpl; split; (done || congruence). Qed.

Lemma applyServerQuote_skip M st sq : key sq = "" → applyServerQuote M st sq = st.
Proof.
  intros Hk. destruct st as [quotes d]. unfold applyServerQuote.
  unfold key in Hk. by rewrite Hk.
Qed.

Lemma applyServerQuote_cases M quotes d sq :
  StepCase M quotes d sq (applyServerQuote M (quotes, d) sq).
Proof.
  unfold applyServerQuote.
  destruct (JsString.truthy (normalizeText (text sq))) eqn:Hk; simpl.
  - apply truthy_key_nonempty in Hk.
    destruct (M !! normalizeText (text sq)) as [idx|] eqn:HM.
    + destruct (quotes !! idx) as [q|] eqn:Hq.
      * case_decide as Hc.
        -- by eapply StepUpdate.
        -- eapply StepSame; [done..|].
           by destruct (decide (orUncategorized (category q)
                                = orUncategorized (category sq))).
      * by eapply StepDangling.
    + by apply StepAdd.
  - apply StepSkip. unfold key.
    destruct (normalizeText (text sq)); [done|discriminate].
Qed.

(** An invariant of the state that every step keeps holds after the loop. *)
Lemma mergeLoop_ind (P : list quote * Details → Prop) M rs st :
  P st →
  (∀ st' sq, sq ∈ rs → P st' → P (applyServerQuote M st' sq)) →
  P (mergeLoop M st rs).
Proof.
  unfold mergeLoop. revert st. induction rs as [|r rs IH]; intros st Hst Hstep; [done|].
  simpl. apply IH.
  - apply Hstep; [by left|done].
  - intros st' sq Hsq. apply Hstep. by right.
Qed.

Lemma mergeLoop_app M st rs1 rs2 :
  mergeLoop M st (rs1 ++ rs2) = mergeLoop M (mergeLoop M st rs1) rs2.
Proof. apply foldl_app. Qed.

(** A step that leaves the counters' sum alone leaves the whole state alone. *)
Lemma applyServerQuote_frame M st sq :
  let st' := applyServerQuote M st sq in
  (st' = st ∨ added st'.2 + updated st'.2 = S (added st.2 + updated st.2)).
Proof.
  destruct st as [quotes d]. cbv zeta.
  destruct (applyServerQuote_cases M quotes d sq); simpl; (by left) || (right; lia).
Qed.

End MergePass.

(** ** Snapshots and what a pass establishes *)

Section Passes.

Implicit Types (quotes qs rs : list quote) (q sq r : quote) (d : Details)
  (M : gmap string nat) (st : list quote * Details).

Lemma orUncategorized_truthy c : JsString.truthy (orUncategorized c) = true.
Proof. destruct c as [[|a s]|]; done. Qed.

Lemma orUncategorized_idem c :
  orUncategorized (Some (orUncategorized c)) = orUncategorized c.
Proof. simpl. by rewrite orUncategorized_truthy. Qed.

Lemma consistent_agree rs r1 r2 :
  consistent rs → r1 ∈ rs → r2 ∈ rs → agree r1 r2.
Proof.
  unfold consistent. rewrite Forall_forall. intros H H1 H2.
  specialize (H r1 H1). rewrite Forall_forall in H. by apply H.
Qed.

Lemma applyServerQuote_settled qs d r :
  settled qs r → applyServerQuote (buildLocalMap qs) (qs, d) r = (qs, d).
Proof.
  intros Hs.
  destruct (applyServerQuote_cases (buildLocalMap qs) qs d r)
    as [?|idx ? HM Hq|idx q ? HM Hq ?|idx q Hk HM Hq Hc|Hk HM]; try done.
  - destruct (Hs Hk) as (idx' & q' & HM' & Hq' & Hc'). congruence.
  - destruct (Hs Hk) as (idx' & q' & HM' & Hq' & Hc'). congruence.
Qed.

(** Once every record of the snapshot is settled, a pass changes nothing. *)
Lemma mergeLoop_settled qs rs d :
  (∀ r, r ∈ rs → settled qs r) →
  mergeLoop (buildLocalMap qs) (qs, d) rs = (qs, d).
Proof.
  intros Hs. apply (mergeLoop_ind (fun st => st = (qs, d))); [done|].
  intros st' sq Hsq ->. apply applyServerQuote_settled. by apply Hs.
Qed.

Lemma passInv_step qs0 rs r st :
  consistent (rs ++ [r]) →
  passInv qs0 rs st →
  passInv qs0 (rs ++ [r]) (applyServerQuote (buildLocalMap qs0) st r).
Proof.
  intros Hcons [Hmap Hset]. destruct st as [qs d]. simpl in Hmap, Hset.
  assert (Hagree : ∀ r', r' ∈ rs → agree r r').
  { intros r' Hr'. eapply consistent_agree; [done| |];
      apply elem_of_app; [right; by left|by left]. }
  destruct (applyServerQuote_cases (buildLocalMap qs0) qs d r)
    as [Hk|idx Hk HM Hq|idx q Hk HM Hq Hc|idx q Hk HM Hq Hc|Hk HM].
  - (* skipped *)
    split; [exact Hmap|]. simpl. intros r' [Hr'|Hr']%elem_of_app; [by apply Hset|].
    apply list_elem_of_singleton in Hr' as ->. by intros ?.
  - (* the map never points outside the store *)
    apply Hmap, buildLocalMap_entry in HM as (q & Hq' & _). congruence.
  - (* same category already *)
    split; [exact Hmap|]. simpl. intros r' [Hr'|Hr']%elem_of_app; [by apply Hset|].
    apply list_elem_of_singleton in Hr' as ->. intros _.
    exists idx, q. split; [by apply Hmap|done].
  - (* category overwritten *)
    set (q' := mkQuote (text q) (Some (orUncategorized (category r)))).
    assert (HB : buildLocalMap (<[idx := q']> qs) = buildLocalMap qs).
    { apply buildLocalMap_keys. by apply keys_set_category. }
    assert (Hlt : idx < length qs) by by eapply lookup_lt_Some.
    split; cbn [fst]; [by rewrite HB|].
    intros r' [Hr'|Hr']%elem_of_app; unfold settled; rewrite HB.
    + intros Hk'. destruct (Hset r' Hr' Hk') as (idx' & q1 & HM' & Hq1 & Hc1).
      destruct (decide (idx' = idx)) as [->|Hne].
      * exists idx, q'. split; [done|]. split; [by apply list_lookup_insert_eq|].
        unfold q'. simpl category. rewrite orUncategorized_idem.
        apply Hagree; [done| |done].
        apply Hmap, buildLocalMap_entry in HM as (qa & Hqa & Hka).
        apply buildLocalMap_entry in HM' as (qb & Hqb & Hkb). congruence.
      * exists idx', q1. split; [done|]. by rewrite list_lookup_insert_ne.
    + apply list_elem_of_singleton in Hr' as ->. intros _.
      exists idx, q'. split; [by apply Hmap|].
      split; [by apply list_lookup_insert_eq|].
      unfold q'. simpl category. by rewrite orUncategorized_idem.
  - (* appended *)
    set (q' := mkQuote (text r) (Some (orUncategorized (category r)))).
    assert (Hkq : key q' = key r) by done.
    split; cbn [fst]; [|unfold settled]; rewrite buildLocalMap_snoc, Hkq.
    + intros k idx Hk'. rewrite lookup_insert_ne by congruence. by apply Hmap.
    + intros r' Hr' Hk'.
      destruct (decide (key r = key r')) as [Heq|Hne].
      * exists (length qs), q'. rewrite Heq, lookup_insert_eq.
        split; [done|]. split.
        -- by rewrite lookup_app_r, Nat.sub_diag.
        -- unfold q'. simpl category. rewrite orUncategorized_idem.
           apply elem_of_app in Hr' as [Hr'|Hr'].
           ++ by apply Hagree.
           ++ by apply list_elem_of_singleton in Hr' as ->.
      * apply elem_of_app in Hr' as [Hr'|Hr'];
          [|apply list_elem_of_singleton in Hr'; congruence].
        destruct (Hset r' Hr' Hk') as (idx' & q1 & HM' & Hq1 & Hc1).
        exists idx', q1. rewrite lookup_insert_ne by done.
        split; [done|]. split; [|done].
        rewrite lookup_app_l; [done|by eapply lookup_lt_Some].
Qed.

Lemma consistent_snoc rs r : consistent (rs ++ [r]) → consistent rs.
Proof.
  unfold consistent. rewrite !Forall_forall. intros H r1 H1.
  rewrite Forall_forall. intros r2 H2.
  eapply (consistent_agree (rs ++ [r])).
  - unfold consistent. by rewrite Forall_forall.
  - apply elem_of_app. by left.
  - apply elem_of_app. by left.
Qed.

Lemma passInv_loop qs0 rs d :
  consistent rs →
  passInv qs0 rs (mergeLoop (buildLocalMap qs0) (qs0, d) rs).
Proof.
  induction rs as [|r rs IH] using rev_ind; intros Hcons.
  - split; [done|]. intros r Hr. by apply elem_of_nil in Hr.
  - rewrite mergeLoop_app. simpl.
    apply passInv_step; [done|]. apply IH. by eapply consistent_snoc.
Qed.

(** A pass keeps the normalized texts pairwise distinct, provided the
    snapshot does not repeat one. *)
Lemma mergeLoop_NoDup M rs qs d :
  (∀ k, k ∈ key <$> qs → is_Some (M !! k) ∨ k ∉ joinKeys rs) →
  NoDup (joinKeys rs) →
  NoDup (key <$> qs) →
  NoDup (key <$> (mergeLoop M (qs, d) rs).1).
Proof.
  revert qs d. induction rs as [|r rs IH]; intros qs d Hdom Hrs Hqs; [done|].
  change (mergeLoop M (qs, d) (r :: rs))
    with (mergeLoop M (applyServerQuote M (qs, d) r) rs).
  assert (Hsub : ∀ k, k ∈ joinKeys rs → k ∈ joinKeys (r :: rs)).
  { intros k. unfold joinKeys. rewrite !list_elem_of_filter. simpl.
    intros [? ?]. split; [done|]. by right. }
  assert (Hrs' : NoDup (joinKeys rs)).
  { unfold joinKeys in *. simpl in Hrs. rewrite filter_cons in Hrs.
    case_decide; [by apply NoDup_cons in Hrs as [_ ?]|done]. }
  assert (Hdom' : ∀ k, k ∈ key <$> qs → is_Some (M !! k) ∨ k ∉ joinKeys rs).
  { intros k Hk. destruct (Hdom k Hk) as [?|Hn]; [by left|right].
    intros Hin. by apply Hn, Hsub. }
  destruct (applyServerQuote_cases M qs d r)
    as [Hk|idx Hk HM Hq|idx q Hk HM Hq Hc|idx q Hk HM Hq Hc|Hk HM].
  - by apply IH.
  - by apply IH.
  - by apply IH.
  - apply IH; [|done|]; by rewrite keys_set_category.
  - assert (Hjoin : joinKeys (r :: rs) = key r :: joinKeys rs).
    { unfold joinKeys. simpl. by rewrite filter_cons_True. }
    rewrite Hjoin in Hrs, Hdom. apply NoDup_cons in Hrs as [Hfresh _].
    assert (Hnew : key r ∉ key <$> qs).
    { intros Hin. destruct (Hdom _ Hin) as [[? ?]|Hn]; [congruence|].
      apply Hn. by left. }
    apply IH; [|done|]; rewrite fmap_app; simpl.
    + intros k [Hin|Hin]%elem_of_app; [by apply Hdom'|].
      apply list_elem_of_singleton in Hin as ->. by right.
    + apply NoDup_app. split; [done|]. split; [|apply NoDup_singleton].
      intros k Hin Hin'. apply list_elem_of_singleton in Hin' as ->. done.
Qed.

End Passes.

(** ** Projections of a pass *)

Section Projections.

Implicit Types (qs rs : list quote) (r : quote).

Lemma store_mergeWithServer qs rs :
  store (mergeWithServer qs rs)
  = (mergeLoop (buildLocalMap qs) (qs, mkDetails 0 0 0) rs).1.
Proof. by rewrite mergeWithServer_eq. Qed.

Lemma details_mergeWithServer qs rs :
  details (mergeWithServer qs rs)
  = (mergeLoop (buildLocalMap qs) (qs, mkDetails 0 0 0) rs).2.
Proof. by rewrite mergeWithServer_eq. Qed.

Lemma mergeLoop_snoc M st rs r :
  mergeLoop M st (rs ++ [r]) = applyServerQuote M (mergeLoop M st rs) r.
Proof. by rewrite mergeLoop_app. Qed.

(** A pass never drops or reorders what the store held. *)
Lemma mergeLoop_keys_prefix M qs d rs :
  (key <$> qs) `prefix_of` (key <$> (mergeLoop M (qs, d) rs).1).
Proof.
  apply (mergeLoop_ind (fun st => (key <$> qs) `prefix_of` (key <$> st.1))); [done|].
  intros [quotes d'] sq _ Hpre. cbn [fst] in Hpre.
  destruct (applyServerQuote_cases M quotes d' sq); cbn [fst]; try done.
  - by rewrite keys_set_category.
  - rewrite fmap_app. by apply prefix_app_r.
Qed.

(** While both counters are zero the store is the one the pass started from. *)
Lemma mergeLoop_unchanged M qs rs :
  let st := mergeLoop M (qs, mkDetails 0 0 0) rs in
  added st.2 + updated st.2 = 0 → st = (qs, mkDetails 0 0 0).
Proof.
  apply (mergeLoop_ind
           (fun st => added st.2 + updated st.2 = 0 → st = (qs, mkDetails 0 0 0)));
    [done|].
  intros st' sq _ IH Hz.
  destruct (applyServerQuote_frame M st' sq) as [Heq|Hs]; [|lia].
  rewrite Heq in Hz |- *. by apply IH.
Qed.

Lemma loadEntries_omap acc items :
  foldl loadEntry acc items = acc ++ omap storedOf items.
Proof.
  revert acc. induction items as [|q items IH]; intros acc; simpl.
  - by rewrite app_nil_r.
  - rewrite IH. unfold loadEntry. destruct (storedOf q); [|done].
    by rewrite <- app_assoc.
Qed.

Lemma omap_all_None {A B} (f : A → option B) (l : list A) :
  Forall (fun x => f x = None) l → omap f l = [].
Proof. induction 1 as [|x l Hx _ IH]; simpl; [done|]. by rewrite Hx. Qed.

End Projections.

(** ** The claims *)

(** C10.  The summary of every pass has [updated] equal to
    [conflictsResolved]: the two counters only ever move together. *)
Theorem updated_eq_conflictsResolved (qs rs : list quote) :
  updated (details (mergeWithServer qs rs))
  = conflictsResolved (details (mergeWithServer qs rs)).
Proof.
  rewrite details_mergeWithServer.
  apply (mergeLoop_ind (fun st => updated st.2 = conflictsResolved st.2)); [done|].
  intros [quotes d] sq _ IH. cbn [snd] in IH.
  destruct (applyServerQuote_cases (buildLocalMap qs) quotes d sq); simpl; lia.
Qed.

(** C7.  A pass saves the quotes and refreshes the categories exactly when
    [added + updated] is positive; when the sum is zero the store is the one
    the pass was given and nothing is written. *)
Theorem persists_iff_changed (qs rs : list quote) :
  let r := mergeWithServer qs rs in
  (0 < added (details r) + updated (details r) →
     effects r = [SaveQuotes (store r); PopulateCategories (store r)])
  ∧ (added (details r) + updated (details r) = 0 →
     store r = qs ∧ effects r = []).
Proof.
  rewrite mergeWithServer_eq. cbn zeta. cbn [store details effects].
  set (st := mergeLoop (buildLocalMap qs) (qs, mkDetails 0 0 0) rs).
  split.
  - intros Hpos. unfold truthyNum.
    destruct (added st.2) as [|a]; [|done].
    destruct (updated st.2) as [|u]; [lia|done].
  - intros Hz.
    pose proof (mergeLoop_unchanged (buildLocalMap qs) qs rs Hz) as Hst.
    change (st = (qs, mkDetails 0 0 0)) in Hst. by rewrite Hst.
Qed.

Lemma persists_iff_changed_witness :
  effects (mergeWithServer [qAX] [qAY])
  = [SaveQuotes (store (mergeWithServer [qAX] [qAY]));
     PopulateCategories (store (mergeWithServer [qAX] [qAY]))]
  ∧ (store (mergeWithServer [qAX] [qAX]) = [qAX]
     ∧ effects (mergeWithServer [qAX] [qAX]) = []).
Proof.
  split.
  - apply (proj1 (persists_iff_changed [qAX] [qAY])). vm_compute. lia.
  - apply (proj2 (persists_iff_changed [qAX] [qAX])). reflexivity.
Defined.

(** C9.  A remote record whose text normalizes to the empty string is
    skipped: a pass over a snapshot that contains it is the pass over the
    snapshot without it, and on its own it adds nothing, updates nothing and
    leaves the store and the persistence gateway alone. *)
Theorem empty_text_record_ignored (qs rs1 rs2 : list quote) (r : quote) :
  normalizeText (text r) = "" →
  mergeWithServer qs (rs1 ++ r :: rs2) = mergeWithServer qs (rs1 ++ rs2)
  ∧ mergeWithServer qs [r] = mkMergeResult qs (mkDetails 0 0 0) [].
Proof.
  intros Hk. split.
  - rewrite !mergeWithServer_eq, !mergeLoop_app.
    change (mergeLoop ?M ?st (r :: rs2))
      with (mergeLoop M (applyServerQuote M st r) rs2).
    by rewrite applyServerQuote_skip.
  - rewrite mergeWithServer_eq.
    change (mergeLoop ?M ?st [r]) with (applyServerQuote M st r).
    by rewrite applyServerQuote_skip.
Qed.

Lemma empty_text_record_ignored_witness :
  mergeWithServer [qAX] ([qBY] ++ mkQuote "  " (Some "Z") :: [qAY])
  = mergeWithServer [qAX] ([qBY] ++ [qAY])
  ∧ mergeWithServer [qAX] [mkQuote "  " (Some "Z")]
    = mkMergeResult [qAX] (mkDetails 0 0 0) [].
Proof.
  apply (empty_text_record_ignored [qAX] [qBY] [qAY] (mkQuote "  " (Some "Z"))).
  reflexivity.
Defined.

Example empty_text_spec_example (qs : list quote) :
  mergeWithServer qs [mkQuote "" (Some "Z")] = mkMergeResult qs (mkDetails 0 0 0) [].
Proof.
  rewrite mergeWithServer_eq.
  change (mergeLoop ?M ?st [?r]) with (applyServerQuote M st r).
  by rewrite applyServerQuote_skip.
Qed.

(** C1, as the code has it.  Merging the same snapshot a second time changes
    nothing and reports [added = 0], [updated = 0], provided the records of
    the snapshot that share a non-empty normalized text also share their
    category (after defaulting). *)
Theorem merge_twice_consistent (qs rs : list quote) :
  consistent rs →
  mergeWithServer (store (mergeWithServer qs rs)) rs
  = mkMergeResult (store (mergeWithServer qs rs)) (mkDetails 0 0 0) [].
Proof.
  intros Hcons.
  pose proof (passInv_loop qs rs (mkDetails 0 0 0) Hcons) as [_ Hset].
  rewrite <- store_mergeWithServer in Hset.
  rewrite (mergeWithServer_eq (store _) rs).
  by rewrite (mergeLoop_settled _ _ _ Hset).
Qed.

Lemma merge_twice_consistent_witness :
  consistent [qAY; qBY; qAY]
  ∧ mergeWithServer (store (mergeWithServer [qAX] [qAY; qBY; qAY])) [qAY; qBY; qAY]
    = mkMergeResult (store (mergeWithServer [qAX] [qAY; qBY; qAY]))
        (mkDetails 0 0 0) [].
Proof.
  assert (H : consistent [qAY; qBY; qAY]).
  { unfold consistent, agree. repeat constructor; vm_compute; congruence. }
  split; [exact H|].
  apply (merge_twice_consistent [qAX] [qAY; qBY; qAY] H).
Defined.

(** C1 fails when the snapshot holds one text under two categories: each
    pass rewrites the category twice. *)
Lemma merge_twice_counterexample :
  store (mergeWithServer [qAX] [qAY; qAZ]) = [qAZ]
  ∧ details (mergeWithServer (store (mergeWithServer [qAX] [qAY; qAZ])) [qAY; qAZ])
    = mkDetails 0 2 2.
Proof. split; reflexivity. Qed.

(** C3, as the code has it.  A pass removes nothing: the normalized texts of
    the store it was given remain, in place, as a prefix.  If those texts are
    pairwise distinct, and so are the non-empty normalized texts of the
    snapshot, the texts of the resulting store are pairwise distinct. *)
Theorem merge_keeps_texts_distinct (qs rs : list quote) :
  (key <$> qs) `prefix_of` (key <$> store (mergeWithServer qs rs))
  ∧ (NoDup (key <$> qs) → NoDup (joinKeys rs) →
     NoDup (key <$> store (mergeWithServer qs rs))).
Proof.
  rewrite store_mergeWithServer. split; [apply mergeLoop_keys_prefix|].
  intros Hqs Hrs. apply mergeLoop_NoDup; [|done..].
  intros k Hk. left. apply buildLocalMap_is_Some.
  apply list_elem_of_fmap in Hk as (q & -> & Hq). eauto.
Qed.

Lemma merge_keeps_texts_distinct_witness :
  NoDup (key <$> store (mergeWithServer [qAX] [qAY; qBY])).
Proof.
  apply (proj2 (merge_keeps_texts_distinct [qAX] [qAY; qBY]));
    vm_compute; repeat constructor; set_solver.
Defined.

(** C3 fails on a store that already repeats a text: the pass leaves both
    entries where they were. *)
Lemma merge_duplicates_counterexample :
  store (mergeWithServer [qAX; qAX] [qBY]) = [qAX; qAX; qBY]
  ∧ ¬ NoDup (key <$> store (mergeWithServer [qAX; qAX] [qBY])).
Proof.
  split; [reflexivity|].
  vm_compute. intros H. apply NoDup_cons in H as [H _]. apply H. by left.
Qed.

(** C2, as the code has it.  Let the last store entry whose normalized text
    is that of remote record [r] sit at [idx], the text being non-empty, and
    let [q] be that entry when [r]'s turn comes.  If the categories differ
    after defaulting, processing [r] writes [r]'s category into slot [idx],
    keeps the text, touches no other slot and raises [updated] and
    [conflictsResolved] by one each; if they match, nothing changes. *)
Theorem remote_wins_on_mapped_entry (qs rs : list quote) (r q : quote) (idx : nat) :
  (key <$> qs) !! idx = Some (key r) →
  (∀ j, (key <$> qs) !! j = Some (key r) → j ≤ idx) →
  key r ≠ "" →
  store (mergeWithServer qs rs) !! idx = Some q →
  let before := mergeWithServer qs rs in
  let after := mergeWithServer qs (rs ++ [r]) in
  (orUncategorized (category q) ≠ orUncategorized (category r) →
     store after
     = <[idx := mkQuote (text q) (Some (orUncategorized (category r)))]> (store before)
     ∧ details after
       = mkDetails (added (details before)) (updated (details before) + 1)
                   (conflictsResolved (details before) + 1))
  ∧ (orUncategorized (category q) = orUncategorized (category r) →
     store after = store before ∧ details after = details before).
Proof.
  intros Hidx Hmax Hk Hq. cbn zeta.
  assert (HM : buildLocalMap qs !! key r = Some idx)
    by by apply buildLocalMap_lookup.
  rewrite !store_mergeWithServer, !details_mergeWithServer, mergeLoop_snoc.
  rewrite store_mergeWithServer in Hq.
  destruct (mergeLoop (buildLocalMap qs) (qs, mkDetails 0 0 0) rs) as [quotes d].
  cbn [fst snd] in *.
  destruct (applyServerQuote_cases (buildLocalMap qs) quotes d r)
    as [?|idx' ? HM' Hq'|idx' q' ? HM' Hq' Hc|idx' q' ? HM' Hq' Hc|? HM'];
    try congruence.
  - assert (idx' = idx) as -> by congruence. assert (q' = q) as -> by congruence.
    split; [done|]. by intros _.
  - assert (idx' = idx) as -> by congruence. assert (q' = q) as -> by congruence.
    split; [|done]. by intros _.
Qed.

Lemma remote_wins_on_mapped_entry_witness :
  store (mergeWithServer [qAX] ([] ++ [qAY])) = [qAY]
  ∧ details (mergeWithServer [qAX] ([] ++ [qAY])) = mkDetails 0 1 1.
Proof.
  apply (remote_wins_on_mapped_entry [qAX] [] qAY qAX 0).
  - reflexivity.
  - intros [|j] Hj; [lia|]. vm_compute in Hj. discriminate.
  - vm_compute. discriminate.
  - reflexivity.
  - vm_compute. congruence.
Defined.

(** C2 fails when the store repeats the text: the entry with the differing
    category is not the one the local map holds, and nothing is updated. *)
Lemma remote_wins_counterexample :
  [qAX; qAY] !! 0 = Some qAX
  ∧ key qAX = key qAY
  ∧ orUncategorized (category qAX) ≠ orUncategorized (category qAY)
  ∧ mergeWithServer [qAX; qAY] [qAY] = mkMergeResult [qAX; qAY] (mkDetails 0 0 0) [].
Proof. repeat split. vm_compute. congruence. Qed.

(** C4, as the code has it.  The local map sends a normalized text to the
    last store entry that carries it, and a pass over one conflicting record
    leaves every other slot as it was. *)
Theorem localMap_last_occurrence (qs : list quote) (k : string) (idx : nat) :
  (buildLocalMap qs !! k = Some idx ↔
     (∃ q, qs !! idx = Some q ∧ key q = k)
     ∧ (∀ j q', qs !! j = Some q' → key q' = k → j ≤ idx))
  ∧ (∀ r j, key r = k → buildLocalMap qs !! k = Some idx → j ≠ idx →
       store (mergeWithServer qs [r]) !! j = qs !! j).
Proof.
  split.
  - rewrite buildLocalMap_lookup. setoid_rewrite list_lookup_fmap. split.
    + intros [Hidx Hmax]. split.
      * destruct (qs !! idx) as [q|]; simplify_eq/=. eauto.
      * intros j q' Hj Hk. apply Hmax. by rewrite Hj, <- Hk.
    + intros [(q & Hq & Hk) Hmax]. split; [by rewrite Hq, <- Hk|].
      intros j Hj. destruct (qs !! j) as [q'|] eqn:Hq'; simplify_eq/=.
      by eapply Hmax.
  - intros r j <- HM Hne.
    rewrite store_mergeWithServer.
    change (mergeLoop ?M ?st [r]) with (applyServerQuote M st r).
    destruct (applyServerQuote_cases (buildLocalMap qs) qs (mkDetails 0 0 0) r)
      as [?|idx' ? HM' Hq'|idx' q' ? HM' Hq' Hc|idx' q' ? HM' Hq' Hc|? HM'];
      cbn [fst]; try done.
    + assert (idx' = idx) as -> by congruence. by rewrite list_lookup_insert_ne.
    + congruence.
Qed.

Lemma localMap_last_occurrence_witness :
  (∃ q, [qAX; qAY; qBY] !! 1 = Some q ∧ key q = "a")
  ∧ (∀ j q', [qAX; qAY; qBY] !! j = Some q' → key q' = "a" → j ≤ 1).
Proof.
  apply (proj1 (proj1 (localMap_last_occurrence [qAX; qAY; qBY] "a" 1))).
  reflexivity.
Defined.

(** C4 fails as stated: of two entries with one text the map holds the
    second, and it is the second that a conflicting record overwrites. *)
Lemma localMap_first_counterexample :
  buildLocalMap [qAX; qAY] !! key qAZ = Some 1
  ∧ store (mergeWithServer [qAX; qAY] [qAZ]) = [qAX; qAZ].
Proof. split; reflexivity. Qed.

(** ** The key and the specification's notion of the same text *)

Section NormalizedText.

Implicit Types (s t u pad core : string) (a b c : ascii).

Lemma append_nil_r s : s +:+ "" = s.
Proof.
  induction s as [|c s IH]; [done|].
  change (String c (s +:+ "") = String c s). by rewrite IH.
Qed.

Lemma append_assoc s t u : (s +:+ t) +:+ u = s +:+ t +:+ u.
Proof.
  induction s as [|c s IH]; [done|].
  change (String c ((s +:+ t) +:+ u) = String c (s +:+ t +:+ u)). by rewrite IH.
Qed.

Lemma append_cons c s t : String c s +:+ t = String c (s +:+ t).
Proof. done. Qed.

Lemma append_nil_l s : "" +:+ s = s.
Proof. done. Qed.

Lemma isWhiteSpace_spec c :
  JsString.isWhiteSpace c = bool_decide (c ∈ whiteSpaceUnits).
Proof. by destruct c as [[] [] [] [] [] [] [] []]. Qed.

Lemma isWhiteSpace_true c : JsString.isWhiteSpace c = true ↔ c ∈ whiteSpaceUnits.
Proof. by rewrite isWhiteSpace_spec, bool_decide_eq_true. Qed.

Lemma isWhiteSpace_false c : JsString.isWhiteSpace c = false ↔ c ∉ whiteSpaceUnits.
Proof. by rewrite isWhiteSpace_spec, bool_decide_eq_false. Qed.

Lemma blank_app s t : blank (s +:+ t) ↔ blank s ∧ blank t.
Proof.
  induction s as [|c s IH]; rewrite ?append_nil_l, ?append_cons; cbn [JsString.trimStart JsString.trimEnd blank sameUpToCase JsString.toLowerCase]; [tauto|]. rewrite IH. tauto.
Qed.

Lemma trimStart_pad pad s : blank pad → JsString.trimStart (pad +:+ s) = JsString.trimStart s.
Proof.
  induction pad as [|c pad IH]; [done|]. intros [Hc Hpad]. rewrite ?append_nil_l, ?append_cons; cbn [JsString.trimStart JsString.trimEnd blank sameUpToCase JsString.toLowerCase].
  apply isWhiteSpace_true in Hc. rewrite Hc. by apply IH.
Qed.

Lemma trimStart_blank pad : blank pad → JsString.trimStart pad = "".
Proof.
  intros H. rewrite <- (append_nil_r pad). by rewrite trimStart_pad.
Qed.

Lemma trimStart_decomp s :
  ∃ pad, s = pad +:+ JsString.trimStart s ∧ blank pad.
Proof.
  induction s as [|c s (pad & Hs & Hpad)]; [by exists ""|].
  rewrite ?append_nil_l, ?append_cons; cbn [JsString.trimStart JsString.trimEnd blank sameUpToCase JsString.toLowerCase]. destruct (JsString.isWhiteSpace c) eqn:Hc.
  - exists (String c pad). rewrite ?append_nil_l, ?append_cons; cbn [JsString.trimStart JsString.trimEnd blank sameUpToCase JsString.toLowerCase]. rewrite <- Hs.
    by apply isWhiteSpace_true in Hc.
  - by exists "".
Qed.

Lemma trimStart_head s c rest :
  JsString.trimStart s = String c rest → c ∉ whiteSpaceUnits.
Proof.
  induction s as [|a s IH]; [done|]. rewrite ?append_nil_l, ?append_cons; cbn [JsString.trimStart JsString.trimEnd blank sameUpToCase JsString.toLowerCase].
  destruct (JsString.isWhiteSpace a) eqn:Ha; [done|].
  intros [= <- _]. by apply isWhiteSpace_false.
Qed.

Lemma trimEnd_blank pad : blank pad → JsString.trimEnd pad = "".
Proof.
  induction pad as [|c pad IH]; [done|]. intros [Hc Hpad]. rewrite ?append_nil_l, ?append_cons; cbn [JsString.trimStart JsString.trimEnd blank sameUpToCase JsString.toLowerCase].
  rewrite (IH Hpad). apply isWhiteSpace_true in Hc. by rewrite Hc.
Qed.

Lemma trimEnd_pad s pad : blank pad → JsString.trimEnd (s +:+ pad) = JsString.trimEnd s.
Proof.
  intros Hpad. induction s as [|c s IH]; [by apply trimEnd_blank|].
  rewrite ?append_nil_l, ?append_cons; cbn [JsString.trimStart JsString.trimEnd blank sameUpToCase JsString.toLowerCase]. by rewrite IH.
Qed.

Lemma trimEnd_decomp s :
  ∃ pad, s = JsString.trimEnd s +:+ pad ∧ blank pad.
Proof.
  induction s as [|c s (pad & Hs & Hpad)]; [by exists ""|].
  rewrite ?append_nil_l, ?append_cons; cbn [JsString.trimStart JsString.trimEnd blank sameUpToCase JsString.toLowerCase]. destruct (JsString.trimEnd s) as [|b t] eqn:Ht.
  - rewrite ?append_nil_l, ?append_cons in Hs; cbn [JsString.trimStart JsString.trimEnd blank sameUpToCase JsString.toLowerCase] in Hs. subst s. destruct (JsString.isWhiteSpace c) eqn:Hc.
    + exists (String c pad). split; [done|].
      by apply isWhiteSpace_true in Hc.
    + by exists pad.
  - exists pad. rewrite ?append_nil_l, ?append_cons; cbn [JsString.trimStart JsString.trimEnd blank sameUpToCase JsString.toLowerCase]. by rewrite Hs at 1.
Qed.

Lemma trimEnd_head s c rest :
  JsString.trimEnd s = String c rest → ∃ rest', s = String c rest'.
Proof.
  destruct s as [|a s]; [done|]. rewrite ?append_nil_l, ?append_cons; cbn [JsString.trimStart JsString.trimEnd blank sameUpToCase JsString.toLowerCase].
  destruct (JsString.trimEnd s); [destruct (JsString.isWhiteSpace a)|];
    intros [= <- _]; eauto.
Qed.

Lemma trimEnd_last s init c :
  JsString.trimEnd s = init +:+ String c "" → c ∉ whiteSpaceUnits.
Proof.
  revert init. induction s as [|a s IH]; intros init.
  { by destruct init. }
  rewrite ?append_nil_l, ?append_cons; cbn [JsString.trimStart JsString.trimEnd blank sameUpToCase JsString.toLowerCase]. destruct (JsString.trimEnd s) as [|b t] eqn:Ht.
  - destruct (JsString.isWhiteSpace a) eqn:Ha; [by destruct init|].
    destruct init as [|i init]; [|by destruct init].
    intros [= <-]. by apply isWhiteSpace_false.
  - destruct init as [|i init]; [done|]. rewrite ?append_nil_l, ?append_cons; cbn [JsString.trimStart JsString.trimEnd blank sameUpToCase JsString.toLowerCase]. intros [= _ H]. by apply (IH init).
Qed.

Lemma trimStart_id core :
  (∀ c rest, core = String c rest → c ∉ whiteSpaceUnits) →
  JsString.trimStart core = core.
Proof.
  destruct core as [|c rest]; [done|]. intros H. rewrite ?append_nil_l, ?append_cons; cbn [JsString.trimStart JsString.trimEnd blank sameUpToCase JsString.toLowerCase].
  by rewrite (proj2 (isWhiteSpace_false c) (H c rest eq_refl)).
Qed.

Lemma trimEnd_id core :
  (∀ init c, core = init +:+ String c "" → c ∉ whiteSpaceUnits) →
  JsString.trimEnd core = core.
Proof.
  induction core as [|a core IH]; [done|]. intros H. rewrite ?append_nil_l, ?append_cons; cbn [JsString.trimStart JsString.trimEnd blank sameUpToCase JsString.toLowerCase].
  rewrite IH.
  - destruct core; [|done].
    by rewrite (proj2 (isWhiteSpace_false a) (H "" a eq_refl)).
  - intros init c ->. by apply (H (String a init) c).
Qed.

(** [trim] cuts a string down to its core, and only to it. *)
Lemma trim_trimmedTo s core : JsString.trim s = core ↔ trimmedTo s core.
Proof.
  unfold JsString.trim. split.
  - intros <-. split; [|split].
    + destruct (trimStart_decomp s) as (pad1 & Hs & Hpad1).
      destruct (trimEnd_decomp (JsString.trimStart s)) as (pad2 & Ht & Hpad2).
      exists pad1, pad2. split; [|done]. by rewrite <- Ht.
    + intros c rest Hc. apply trimEnd_head in Hc as [rest' Hc].
      by apply trimStart_head in Hc.
    + intros init c Hc. by apply trimEnd_last in Hc.
  - intros ((pad1 & pad2 & -> & Hpad1 & Hpad2) & Hhead & Hlast).
    rewrite trimStart_pad by done.
    destruct core as [|c rest].
    + rewrite ?append_nil_l, ?append_cons; cbn [JsString.trimStart JsString.trimEnd blank sameUpToCase JsString.toLowerCase]. by rewrite trimStart_blank.
    + rewrite trimStart_id.
      * rewrite trimEnd_pad by done. by apply trimEnd_id.
      * intros c' rest' [= <- _]. by apply (Hhead c rest).
Qed.

Lemma N_of_ascii_inj a b : N_of_ascii a = N_of_ascii b → a = b.
Proof. intros H. by rewrite <- (ascii_N_embedding a), H, ascii_N_embedding. Qed.

Lemma lowerChar_sameLetter a b :
  JsString.lowerChar a = JsString.lowerChar b ↔ sameLetter a b.
Proof.
  unfold sameLetter, upperOf, JsString.lowerChar. cbv zeta.
  pose proof (N_ascii_bounded a) as Ha. pose proof (N_ascii_bounded b) as Hb.
  assert (∀ x y, x = y ↔ N_of_ascii x = N_of_ascii y) as Heq.
  { intros x y. split; [by intros ->|apply N_of_ascii_inj]. }
  rewrite !Heq.
  repeat match goal with
         | |- context [if ?c then _ else _] => destruct c eqn:?
         end;
    rewrite ?N_ascii_embedding by
      (repeat match goal with
              | H : _ = true |- _ =>
                  first [apply orb_true_iff in H as [H|H]
                        |apply andb_true_iff in H as [? ?]
                        |apply N.leb_le in H
                        |apply negb_true_iff in H; apply N.eqb_neq in H]
              end; lia);
    repeat match goal with
           | H : _ = true |- _ =>
               first [apply orb_true_iff in H as [H|H]
                     |apply andb_true_iff in H as [? ?]
                     |apply N.leb_le in H
                     |apply negb_true_iff in H; apply N.eqb_neq in H]
           | H : _ = false |- _ =>
               first [apply orb_false_iff in H as [? ?]
                     |apply andb_false_iff in H as [H|H]
                     |apply N.leb_gt in H
                     |apply negb_false_iff in H; apply N.eqb_eq in H]
           end;
    lia.
Qed.

Lemma toLowerCase_sameUpToCase s t :
  JsString.toLowerCase s = JsString.toLowerCase t ↔ sameUpToCase s t.
Proof.
  revert t. induction s as [|a s IH]; intros [|b t]; rewrite ?append_nil_l, ?append_cons; cbn [JsString.trimStart JsString.trimEnd blank sameUpToCase JsString.toLowerCase]; try done.
  rewrite <- IH, <- lowerChar_sameLetter. split; [by intros [= -> ->]|by intros [-> ->]].
Qed.

Lemma toLowerCase_nil s : JsString.toLowerCase s = "" ↔ s = "".
Proof. by destruct s. Qed.

(** The source's key identifies exactly the texts the specification calls
    the same. *)
Lemma normalizeText_sameText s t :
  normalizeText s = normalizeText t ↔ sameText s t.
Proof.
  unfold normalizeText, sameText. rewrite toLowerCase_sameUpToCase. split.
  - intros H. exists (JsString.trim s), (JsString.trim t).
    by rewrite <- !trim_trimmedTo.
  - intros (cs & ct & Hs & Ht & H).
    apply trim_trimmedTo in Hs, Ht. by subst.
Qed.

Lemma normalizeText_blank s : normalizeText s = "" ↔ blank s.
Proof.
  unfold normalizeText. rewrite toLowerCase_nil, trim_trimmedTo. split.
  - intros ((pad1 & pad2 & -> & H1 & H2) & _). by rewrite !blank_app.
  - intros H. split; [|split].
    + exists s, "". rewrite ?append_nil_l, ?append_cons; cbn [JsString.trimStart JsString.trimEnd blank sameUpToCase JsString.toLowerCase]. by rewrite append_nil_r.
    + done.
    + by intros [|??] ?.
Qed.

End NormalizedText.

(** C5.  The join is on the text trimmed and lower-cased.  [normalizeText]
    gives two texts one key exactly when they are the same text in the
    specification's sense: each stripped of the white space around it, the
    two agree letter by letter up to case.  So the local map answers for a
    remote record exactly when some local quote has the same text in that
    sense, the entry it answers with is such a quote, and a record whose text
    is not blank is appended exactly when no local quote has the same text.
    A local [" Hello "] therefore absorbs a remote ["hello"], while texts
    that differ inside, as ["a b"] and ["ab"], are kept apart. *)
Theorem join_on_normalized_text (qs : list quote) (r : quote) :
  (∀ s t, normalizeText s = normalizeText t ↔ sameText s t)
  ∧ (∀ idx, buildLocalMap qs !! normalizeText (text r) = Some idx →
     ∃ q, qs !! idx = Some q ∧ sameText (text q) (text r))
  ∧ (is_Some (buildLocalMap qs !! normalizeText (text r)) ↔
     ∃ q, q ∈ qs ∧ sameText (text q) (text r))
  ∧ (¬ blank (text r) →
     (added (details (mergeWithServer qs [r])) = 0 ↔
      ∃ q, q ∈ qs ∧ sameText (text q) (text r)))
  ∧ (∀ c c',
       added (details (mergeWithServer [mkQuote " Hello " c] [mkQuote "hello" c'])) = 0
       ∧ length (store (mergeWithServer [mkQuote " Hello " c] [mkQuote "hello" c'])) = 1)
  ∧ (∀ c c',
       added (details (mergeWithServer [mkQuote "a b" c] [mkQuote "ab" c'])) = 1
       ∧ length (store (mergeWithServer [mkQuote "a b" c] [mkQuote "ab" c'])) = 2).
Proof.
  split; [exact normalizeText_sameText|].
  split; [|split; [|split; [|split]]].
  - intros idx HM. apply buildLocalMap_entry in HM as (q & Hq & Hk).
    exists q. split; [done|]. by apply normalizeText_sameText.
  - rewrite buildLocalMap_is_Some.
    split; intros (q & Hq & Hk); exists q; (split; [done|]);
      by apply normalizeText_sameText.
  - intros Hk. rewrite <- normalizeText_blank in Hk.
    assert ((∃ q, q ∈ qs ∧ sameText (text q) (text r))
            ↔ is_Some (buildLocalMap qs !! normalizeText (text r))) as ->.
    { rewrite buildLocalMap_is_Some.
      split; intros (q & Hq & Hq'); exists q; (split; [done|]);
        by apply normalizeText_sameText. }
    rewrite details_mergeWithServer.
    change (mergeLoop ?M ?st [r]) with (applyServerQuote M st r).
    destruct (applyServerQuote_cases (buildLocalMap qs) qs (mkDetails 0 0 0) r)
      as [?|idx ? HM Hq|idx q ? HM Hq Hc|idx q ? HM Hq Hc|? HM];
      cbn [snd added]; unfold key in *; try done; try (split; eauto; done).
    rewrite HM. split; [lia|]. by intros [? ?].
  - intros c c'.
    rewrite details_mergeWithServer, store_mergeWithServer.
    change (mergeLoop ?M ?st [?x]) with (applyServerQuote M st x).
    unfold applyServerQuote.
    change (normalizeText (text (mkQuote "hello" c'))) with "hello".
    change (buildLocalMap [mkQuote " Hello " c] !! "hello") with (Some 0).
    cbn [negb JsString.truthy lookup list_lookup].
    case_decide; cbn [fst snd added]; by rewrite ?length_insert.
  - intros c c'.
    rewrite details_mergeWithServer, store_mergeWithServer.
    change (mergeLoop ?M ?st [?x]) with (applyServerQuote M st x).
    unfold applyServerQuote.
    change (normalizeText (text (mkQuote "ab" c'))) with "ab".
    change (buildLocalMap [mkQuote "a b" c] !! "ab") with (@None nat).
    by cbn.
Qed.

Lemma join_on_normalized_text_witness :
  added (details (mergeWithServer [qAX] [mkQuote " a " None])) = 0
  ↔ ∃ q : quote, q ∈ [qAX] ∧ sameText (text q) " a ".
Proof.
  apply (proj1 (proj2 (proj2 (proj2
           (join_on_normalized_text [qAX] (mkQuote " a " None)))))).
  intros (_ & Ha & _). apply (proj2 (isWhiteSpace_true _)) in Ha. discriminate.
Defined.

(** ** What the fetch hands to the pass *)

Lemma json_nested_ind (P : json → Prop) :
  P JNull → (∀ b, P (JBool b)) → (∀ r, P (JNum r)) → (∀ s, P (JStr s)) →
  (∀ items, Forall P items → P (JArr items)) →
  (∀ fields, P (JObj fields)) →
  ∀ v, P v.
Proof.
  intros Hn Hb Hnum Hs Ha Ho. fix IH 1.
  intros [|b|r|s|items|fields];
    [exact Hn|apply Hb|apply Hnum|apply Hs| |apply Ho].
  apply Ha. induction items as [|x items IHi]; constructor; [apply IH|exact IHi].
Qed.

(** [String] throws exactly on the values that are not [stringable]. *)
Lemma toString_is_Some (v : json) :
  is_Some (Json.toString v) ↔ Json.stringable v = true.
Proof.
  induction v as [|[]| | |items IH|fields] using json_nested_ind;
    cbn [Json.toString Json.stringable]; try (split; [done|by eexists]).
  - rewrite fmap_is_Some.
    induction IH as [|x items Hx _ IHitems]; [split; [done|by eexists]|].
    cbn [forallb]. rewrite andb_true_iff, <- Hx, <- IHitems.
    destruct x; cbn [Json.toString Json.stringable] in *;
      repeat match goal with
             | |- context [match ?o with Some _ => _ | None => _ end] =>
                 destruct o eqn:?
             | |- context [if ?b then _ else _] => destruct b eqn:?
             end;
      split; try done; try (by intros [? ?]); try (by intros [[? ?] [? ?]]);
      try (by intros; split; eexists); try (by intros; eexists).
  - destruct (Json.hasOwn "toString" fields); cbn; split; try done;
      try (by intros [? ?]); by eexists.
Qed.

Lemma titleConversion_is_Some (o : option json) :
  is_Some (match o with
           | Some v => if Json.truthy v then Json.toString v else Some ""
           | None => Some ""
           end)
  ↔ ∀ v, o = Some v → Json.truthy v = true → Json.stringable v = true.
Proof.
  destruct o as [t|]; [|split; [done|by eexists]].
  destruct (Json.truthy t) eqn:Ht.
  - rewrite toString_is_Some. split; [by intros H v [= <-] _|by eauto].
  - split; [|by eexists]. intros _ v [= <-]. congruence.
Qed.

Lemma toStringU_is_Some (o : option json) :
  is_Some (Json.toStringU o) ↔ ∀ v, o = Some v → Json.stringable v = true.
Proof.
  destruct o as [u|]; cbn [Json.toStringU]; [|split; [done|by eexists]].
  rewrite toString_is_Some. split; [by intros H v [= <-]|by eauto].
Qed.

Lemma pair_is_Some {A B C} (x : option A) (y : option B) (f : A → B → C) :
  is_Some (match x, y with Some a, Some b => Some (f a b) | _, _ => None end)
  ↔ is_Some x ∧ is_Some y.
Proof.
  destruct x, y; split; try (by intros [? ?]); try (by intros [[? ?] [? ?]]);
    by (intros; repeat split; eexists).
Qed.

Lemma postToQuote_is_Some (p : json) : is_Some (postToQuote p) ↔ convertiblePost p.
Proof.
  unfold convertiblePost, postToQuote.
  destruct p as [|b|r|s|items|fields];
    [split; [by intros [? ?]|by intros [? _]]|..];
    rewrite (pair_is_Some _ _
               (fun title userId =>
                  mkQuote (JsString.trim title) (Some ("Server-" +:+ userId)))),
            titleConversion_is_Some, toStringU_is_Some;
    (split; [by intros [? ?]|by intros (_ & ? & ?)]).
Qed.

Lemma postToQuote_category (p : json) (q : quote) :
  postToQuote p = Some q → ∃ u, category q = Some ("Server-" +:+ u).
Proof.
  unfold postToQuote. destruct p;
    repeat match goal with
           | |- context [match ?o with Some _ => _ | None => _ end] => destruct o
           | |- context [if ?b then _ else _] => destruct b
           end;
    intros [= <-]; eauto.
Qed.

Lemma fetchServerQuotes_payload_aux (data : list json) (qs : list quote) :
  fetchServerQuotes (FetchResponse true (Some (JArr data))) = Some qs →
  Forall (fun q => ∃ u, category q = Some ("Server-" +:+ u)) qs.
Proof.
  cbn [fetchServerQuotes]. intros Hqs. apply mapM_Some in Hqs.
  eapply Forall2_Forall_r; [done|].
  apply Forall_forall. intros p _ q. apply postToQuote_category.
Qed.

(** The fetch throws on every outcome but an ok response whose body is an
    array of convertible posts. *)
Lemma fetchServerQuotes_throws (o : FetchOutcome) :
  fetchServerQuotes o = None
  ↔ match o with
    | FetchResponse true (Some (JArr data)) => ¬ Forall convertiblePost data
    | _ => True
    end.
Proof.
  destruct o as [|[] [[| | | |data|]|]]; cbn [fetchServerQuotes]; try done.
  rewrite eq_None_not_Some, mapM_is_Some.
  apply not_iff_compat, Forall_iff. intros p. apply postToQuote_is_Some.
Qed.

(** C6.  When [fetchServerQuotes] throws, [doSync] hands back the store it
    was given and [null]; it writes nothing to the persistence gateway, all it
    does is set the status line.  When the fetch succeeds it returns the
    summary of the pass, which is not [null].  The fetch throws when the
    request is rejected, when the response is not ok, when its body does not
    parse or is not an array, and when an element of the array is [null] or
    carries a title or a user id that does not convert to a string; it
    succeeds on every other outcome. *)
Theorem doSync_abort (showNotification statusEl : bool) (qs : list quote)
    (o : FetchOutcome) :
  let r := doSync showNotification statusEl qs o in
  (fetchServerQuotes o = None →
     syncStore r = qs ∧ syncOutcome r = None
     ∧ ∀ e, e ∈ syncEffects r → e = StatusSyncing ∨ e = StatusSyncFailed)
  ∧ (∀ serverQuotes, fetchServerQuotes o = Some serverQuotes →
       syncStore r = store (mergeWithServer qs serverQuotes)
       ∧ syncOutcome r = Some (details (mergeWithServer qs serverQuotes)))
  ∧ (fetchServerQuotes o = None
     ↔ match o with
       | FetchResponse true (Some (JArr data)) => ¬ Forall convertiblePost data
       | _ => True
       end).
Proof.
  cbn zeta. unfold doSync. split; [|split].
  - intros ->. cbn [syncStore syncOutcome syncEffects]. repeat split.
    intros e. destruct statusEl; set_solver.
  - by intros serverQuotes ->.
  - apply fetchServerQuotes_throws.
Qed.

Lemma doSync_abort_witness :
  (syncStore (doSync true true [qAX] FetchRejected) = [qAX]
   ∧ syncOutcome (doSync true true [qAX] FetchRejected) = None
   ∧ ∀ e, e ∈ syncEffects (doSync true true [qAX] FetchRejected) →
          e = StatusSyncing ∨ e = StatusSyncFailed)
  ∧ (syncStore (doSync true true [qAX] (FetchResponse true (Some (JArr [JNull])))) = [qAX]
     ∧ syncOutcome (doSync true true [qAX] (FetchResponse true (Some (JArr [JNull])))) = None
     ∧ ∀ e, e ∈ syncEffects (doSync true true [qAX]
                                (FetchResponse true (Some (JArr [JNull])))) →
            e = StatusSyncing ∨ e = StatusSyncFailed)
  ∧ (syncStore
       (doSync true true [qAX]
          (FetchResponse true
             (Some (JArr [JObj [("title", JObj [("toString", JNum "1")])]]))))
     = [qAX]
     ∧ syncOutcome
         (doSync true true [qAX]
            (FetchResponse true
               (Some (JArr [JObj [("title", JObj [("toString", JNum "1")])]]))))
       = None
     ∧ ∀ e, e ∈ syncEffects
                  (doSync true true [qAX]
                     (FetchResponse true
                        (Some (JArr [JObj [("title", JObj [("toString", JNum "1")])]])))) →
            e = StatusSyncing ∨ e = StatusSyncFailed).
Proof.
  split; [|split].
  - apply (proj1 (doSync_abort true true [qAX] FetchRejected)). reflexivity.
  - apply (proj1 (doSync_abort true true [qAX]
                    (FetchResponse true (Some (JArr [JNull]))))).
    reflexivity.
  - apply (proj1 (doSync_abort true true [qAX]
                    (FetchResponse true
                       (Some (JArr [JObj [("title", JObj [("toString", JNum "1")])]]))))).
    reflexivity.
Defined.

(** C8, as the code has it.  [loadQuotes] never throws.  It leaves the store
    as it was when nothing is stored, when the stored text is empty, when it
    is not JSON, and when it is JSON but not an array.  When it is an array the
    store becomes the array's valid entries, so an array with no valid entry
    leaves the store empty. *)
Theorem loadQuotes_malformed (JSON_parse : string → option json)
    (quotes : list storedQuote) (raw : option string) :
  (loadQuotes JSON_parse quotes raw).2 = Normal
  ∧ (raw = None ∨ raw = Some "" → (loadQuotes JSON_parse quotes raw).1 = quotes)
  ∧ (∀ s, raw = Some s → JSON_parse s = None →
       (loadQuotes JSON_parse quotes raw).1 = quotes)
  ∧ (∀ s v, raw = Some s → JSON_parse s = Some v → (∀ items, v ≠ JArr items) →
       (loadQuotes JSON_parse quotes raw).1 = quotes)
  ∧ (∀ s items, raw = Some s → s ≠ "" → JSON_parse s = Some (JArr items) →
       (loadQuotes JSON_parse quotes raw).1 = omap storedOf items
       ∧ (Forall (fun q => storedOf q = None) items →
          (loadQuotes JSON_parse quotes raw).1 = [])).
Proof.
  unfold loadQuotes, loadQuotesTry. split; [|split; [|split; [|split]]].
  - by destruct raw as [s|]; [destruct (JsString.truthy s), (JSON_parse s) as [[]|]|].
  - by intros [->| ->].
  - intros s -> ->. by destruct (JsString.truthy s).
  - intros s v -> -> Hv. destruct (JsString.truthy s); [|done].
    destruct v; try done. by destruct (Hv items).
  - intros s items -> Hs ->. apply truthy_key_nonempty in Hs as ->.
    cbn [fst]. rewrite loadEntries_omap. split; [done|].
    intros Hall. by apply omap_all_None.
Qed.

Lemma loadQuotes_malformed_witness :
  (loadQuotes (parseOnly "[]" (JArr [])) [mkQuote "seed" (JStr "Life")]
     (Some "{oops")).1
  = [mkQuote "seed" (JStr "Life")].
Proof.
  apply (proj1 (proj2 (proj2 (loadQuotes_malformed (parseOnly "[]" (JArr []))
                                [mkQuote "seed" (JStr "Life")] (Some "{oops"))))
           "{oops"); reflexivity.
Defined.

(** C8 fails for an array without valid entries: the store is emptied, not
    left at its prior state. *)
Lemma loadQuotes_counterexample :
  Forall (fun q => storedOf q = None) [JNum "1"; JNum "2"]
  ∧ loadQuotes (parseOnly "[1,2]" (JArr [JNum "1"; JNum "2"]))
      [mkQuote "seed" (JStr "Life")] (Some "[1,2]")
    = ([], Normal).
Proof. split; [by repeat constructor|reflexivity]. Qed.

(** The detached loop of [mergeWithServer] does compare an empty normalized
    text: a remote record with one keeps a blank local quote from being
    posted.  Neither the store nor the summary depends on it. *)
Example localOnly_blank_text :
  localOnly [mkQuote " " (Some "X")] [] = [mkQuote " " (Some "X")]
  ∧ localOnly [mkQuote " " (Some "X")] [mkQuote "" (Some "Z")] = [].
Proof. split; reflexivity. Qed.

(** ** The earlier variant differs *)

(** There the join is on the exact text, an empty text is appended like any
    other, and the store is saved whatever happened. *)
Example part000_exact_text_join :
  Part000.syncWithServer [mkQuote " Hello " (Some "X")]
    [mkQuote "hello" (Some "X"); mkQuote "" None]
  = ([mkQuote " Hello " (Some "X"); mkQuote "hello" (Some "X"); mkQuote "" None],
     [SaveQuotes [mkQuote " Hello " (Some "X"); mkQuote "hello" (Some "X"); mkQuote "" None];
      PopulateCategories
        [mkQuote " Hello " (Some "X"); mkQuote "hello" (Some "X"); mkQuote "" None];
      NotifySync 2 0]).
Proof. reflexivity. Qed.

(** There a stored text that is not JSON makes [loadQuotes] throw. *)
Example part000_load_throws :
  Part000.loadQuotes (parseOnly "[]" (JArr [])) [mkQuote "seed" (JStr "Life")]
    (Some "{oops")
  = ([mkQuote "seed" (JStr "Life")], Throws).
Proof. reflexivity. Qed.

(** * Further properties *)

(** ** The shape of the store after a pass *)

Section PassShape.

Implicit Types (qs rs : list quote) (r q : quote) (d : Details).

Lemma unknownTo_snoc qs rs r :
  unknownTo qs (rs ++ [r])
  = unknownTo qs rs
    ++ (if decide (key r ≠ "" ∧ key r ∉ key <$> qs) then [r] else []).
Proof.
  unfold unknownTo. by rewrite filter_app.
Qed.

Lemma buildLocalMap_None qs k :
  buildLocalMap qs !! k = None ↔ k ∉ key <$> qs.
Proof.
  rewrite eq_None_not_Some, buildLocalMap_is_Some, list_elem_of_fmap.
  split; intros H (q & ? & ?); apply H; exists q; done.
Qed.

(** After the loop the store is the old entries, in place and with their
    texts, followed by one pushed record per unknown remote record. *)
Lemma mergeLoop_shape qs rs d :
  ∃ qs',
    (mergeLoop (buildLocalMap qs) (qs, d) rs).1
    = qs' ++ (pushedRecord <$> unknownTo qs rs)
    ∧ length qs' = length qs
    ∧ added (mergeLoop (buildLocalMap qs) (qs, d) rs).2
      = added d + length (unknownTo qs rs).
Proof.
  induction rs as [|r rs IH] using rev_ind.
  - exists qs. cbn. rewrite app_nil_r. repeat split; lia.
  - destruct IH as (qs' & Hst & Hlen & Hadd).
    rewrite mergeLoop_snoc, unknownTo_snoc.
    destruct (mergeLoop (buildLocalMap qs) (qs, d) rs) as [quotes d'].
    cbn [fst snd] in Hst, Hadd. subst quotes.
    destruct (applyServerQuote_cases (buildLocalMap qs)
                (qs' ++ (pushedRecord <$> unknownTo qs rs)) d' r)
      as [Hk|idx Hk HM Hq|idx q Hk HM Hq Hc|idx q Hk HM Hq Hc|Hk HM]; cbn [fst snd].
    + rewrite decide_False by (intros [? _]; done).
      exists qs'. rewrite app_nil_r, Hadd. done.
    + rewrite decide_False
        by (intros [_ Hn]; by apply buildLocalMap_None in Hn; congruence).
      exists qs'. rewrite app_nil_r, Hadd. done.
    + rewrite decide_False
        by (intros [_ Hn]; by apply buildLocalMap_None in Hn; congruence).
      exists qs'. rewrite app_nil_r, Hadd. done.
    + rewrite decide_False
        by (intros [_ Hn]; by apply buildLocalMap_None in Hn; congruence).
      apply buildLocalMap_entry in HM as (q0 & Hq0 & _).
      apply lookup_lt_Some in Hq0.
      exists (<[idx := mkQuote (text q) (Some (orUncategorized (category r)))]> qs').
      rewrite app_nil_r, length_insert, insert_app_l by lia.
      cbn [added]. done.
    + rewrite decide_True by (split; [done|by apply buildLocalMap_None]).
      exists qs'. rewrite fmap_app, app_assoc, length_app. cbn [added].
      repeat split; [done|]. simpl. lia.
Qed.

End PassShape.

(** X1.  A pass appends exactly one record per remote record whose non-empty
    normalized text the store it was given lacks, in snapshot order and once
    per occurrence; [added] counts them. *)
Theorem merge_appended_entries (qs rs : list quote) :
  drop (length qs) (store (mergeWithServer qs rs))
  = pushedRecord <$> unknownTo qs rs
  ∧ added (details (mergeWithServer qs rs)) = length (unknownTo qs rs)
  ∧ length (store (mergeWithServer qs rs))
    = length qs + added (details (mergeWithServer qs rs)).
Proof.
  rewrite store_mergeWithServer, details_mergeWithServer.
  destruct (mergeLoop_shape qs rs (mkDetails 0 0 0)) as (qs' & -> & Hlen & ->).
  rewrite <- Hlen, drop_app_length, length_app, length_fmap. done.
Qed.

(** X2.  A pass keeps every quote it was given in its slot and with its text;
    the category either stays or becomes the (defaulted) category of a remote
    record with the same normalized text. *)
Theorem merge_local_entries (qs rs : list quote) (i : nat) (q : quote) :
  qs !! i = Some q →
  ∃ q', store (mergeWithServer qs rs) !! i = Some q'
        ∧ text q' = text q
        ∧ (category q' = category q
           ∨ ∃ r, r ∈ rs ∧ key r = key q
                  ∧ category q' = Some (orUncategorized (category r))).
Proof.
  intros Hq. rewrite store_mergeWithServer.
  apply (mergeLoop_ind
           (fun st => ∃ q', st.1 !! i = Some q' ∧ text q' = text q
                            ∧ (category q' = category q
                               ∨ ∃ r, r ∈ rs ∧ key r = key q
                                      ∧ category q' = Some (orUncategorized (category r))))).
  { exists q. eauto. }
  intros [quotes d] sq Hsq (q' & Hq' & Ht & Hc). cbn [fst] in Hq'.
  destruct (applyServerQuote_cases (buildLocalMap qs) quotes d sq)
    as [?|idx ? HM Hi|idx q0 ? HM Hi ?|idx q0 ? HM Hi ?|? HM]; cbn [fst]; eauto.
  - destruct (decide (idx = i)) as [->|Hne].
    + assert (q0 = q') as -> by congruence.
      eexists. split; [apply list_lookup_insert_eq; by eapply lookup_lt_Some|].
      split; [done|]. right. exists sq. split; [done|]. split; [|done].
      apply buildLocalMap_entry in HM as (qa & Hqa & Hka). congruence.
    + exists q'. by rewrite list_lookup_insert_ne.
  - exists q'. split; [|done]. rewrite lookup_app_l; [done|by eapply lookup_lt_Some].
Qed.

Lemma merge_local_entries_witness :
  ∃ q', store (mergeWithServer [qAX; qBY] [qAZ]) !! 0 = Some q'
        ∧ text q' = text qAX
        ∧ (category q' = category qAX
           ∨ ∃ r, r ∈ [qAZ] ∧ key r = key qAX
                  ∧ category q' = Some (orUncategorized (category r))).
Proof. apply (merge_local_entries [qAX; qBY] [qAZ] 0 qAX). reflexivity. Defined.

(** X3.  After a pass the store holds an entry for every remote record with
    a non-empty normalized text. *)
Theorem merge_covers_snapshot (qs rs : list quote) (r : quote) :
  r ∈ rs → key r ≠ "" → key r ∈ key <$> store (mergeWithServer qs rs).
Proof.
  intros Hr Hk.
  destruct (decide (key r ∈ key <$> qs)) as [Hin|Hout].
  - rewrite store_mergeWithServer.
    destruct (mergeLoop_keys_prefix (buildLocalMap qs) qs (mkDetails 0 0 0) rs)
      as [rest ->].
    apply elem_of_app. by left.
  - rewrite store_mergeWithServer.
    destruct (mergeLoop_shape qs rs (mkDetails 0 0 0)) as (qs' & -> & _ & _).
    rewrite fmap_app. apply elem_of_app. right.
    apply list_elem_of_fmap. exists (pushedRecord r). split; [done|].
    apply list_elem_of_fmap. exists r. split; [done|].
    unfold unknownTo. by apply list_elem_of_filter.
Qed.

Lemma merge_covers_snapshot_witness :
  key qBY ∈ key <$> store (mergeWithServer [qAX] [qAZ; qBY]).
Proof.
  apply (merge_covers_snapshot [qAX] [qAZ; qBY] qBY).
  - set_solver.
  - vm_compute. discriminate.
Defined.

Lemma joinKeys_snoc rs r :
  joinKeys (rs ++ [r]) = joinKeys rs ++ (if decide (key r ≠ "") then [key r] else []).
Proof. unfold joinKeys. by rewrite fmap_app, filter_app. Qed.

(** X4.  Only records with a non-empty normalized text can move a counter,
    and each moves one of [added], [updated] by at most one. *)
Theorem merge_counters_bound (qs rs : list quote) :
  added (details (mergeWithServer qs rs)) + updated (details (mergeWithServer qs rs))
  ≤ length (joinKeys rs).
Proof.
  rewrite details_mergeWithServer.
  induction rs as [|r rs IH] using rev_ind; [done|].
  rewrite mergeLoop_snoc, joinKeys_snoc, length_app.
  destruct (mergeLoop (buildLocalMap qs) (qs, mkDetails 0 0 0) rs) as [quotes d].
  cbn [snd] in IH.
  destruct (applyServerQuote_cases (buildLocalMap qs) quotes d r);
    cbn [snd added updated]; try lia;
    rewrite decide_True by done; simpl; lia.
Qed.

Lemma mergeLoop_coupled M (st : list quote * Details) (rs : list quote) :
  updated st.2 = conflictsResolved st.2 →
  updated (mergeLoop M st rs).2 = conflictsResolved (mergeLoop M st rs).2.
Proof.
  intros H0.
  apply (mergeLoop_ind (fun st => updated st.2 = conflictsResolved st.2)); [done|].
  intros [quotes d] sq _ IH. cbn [snd] in IH.
  destruct (applyServerQuote_cases M quotes d sq); simpl; lia.
Qed.

(** X5.  A successful cycle shows the sync notification exactly when it was
    asked to and the pass saved the store; a failed cycle never shows it and
    never saves. *)
Theorem doSync_notifies_iff_saved (showNotification statusEl : bool)
    (qs : list quote) (o : FetchOutcome) :
  let r := doSync showNotification statusEl qs o in
  ((∃ d, ShowSyncNotification d ∈ syncEffects r)
   ↔ showNotification = true ∧ ∃ s, SaveQuotes s ∈ syncEffects r)
  ∧ ((∃ s, SaveQuotes s ∈ syncEffects r)
     ↔ ∃ d, syncOutcome r = Some d ∧ 0 < added d + updated d).
Proof.
  cbn zeta. unfold doSync.
  destruct (fetchServerQuotes o) as [serverQuotes|]; cbn [syncEffects syncOutcome].
  - pose proof (mergeLoop_coupled (buildLocalMap qs) (qs, mkDetails 0 0 0)
                  serverQuotes eq_refl) as Hc.
    rewrite mergeWithServer_eq. cbn zeta. cbn [details effects store].
    destruct (mergeLoop (buildLocalMap qs) (qs, mkDetails 0 0 0) serverQuotes)
      as [quotes d]. cbn [fst snd] in *.
    destruct d as [a u c]. cbn [added updated conflictsResolved] in *. subst c.
    unfold truthyNum.
    destruct a as [|a], u as [|u], showNotification, statusEl; cbn;
      (split; split;
       [ intros [? H]; in_concrete H
       | intros [? [? H]]; try discriminate; in_concrete H
       | intros [? H]; in_concrete H
       | intros (? & [= <-] & H); cbn in H; try lia; eexists; by in_list ]).
  - split; split.
    + intros [d H]. destruct statusEl; in_concrete H.
    + intros [_ [s H]]. destruct statusEl; in_concrete H.
    + intros [s H]. destruct statusEl; in_concrete H.
    + by intros (d & ? & _).
Qed.

(** X6.  For a response that is ok and whose body is an array,
    [fetchServerQuotes] throws exactly when some element is [null] or has a
    truthy title or a user id that [String] cannot convert (an object with a
    [toString] member of its own, possibly inside arrays); otherwise it
    returns one record per element, in order, each with a category that begins
    with [Server-]. *)
Theorem fetchServerQuotes_payload (data : list json) :
  (is_Some (fetchServerQuotes (FetchResponse true (Some (JArr data))))
   ↔ Forall convertiblePost data)
  ∧ (∀ qs, fetchServerQuotes (FetchResponse true (Some (JArr data))) = Some qs →
       length qs = length data
       ∧ Forall (fun q => ∃ u, category q = Some ("Server-" +:+ u)) qs).
Proof.
  cbn [fetchServerQuotes]. split.
  - rewrite mapM_is_Some. apply Forall_iff. intros p. apply postToQuote_is_Some.
  - intros qs Hqs. split.
    + apply mapM_Some in Hqs. symmetry. by eapply Forall2_length.
    + by apply (fetchServerQuotes_payload_aux data).
Qed.

Lemma fetchServerQuotes_payload_witness :
  length [mkQuote "a" (Some "Server-1"); mkQuote "" (Some "Server-undefined")]
  = length [JObj [("userId", JNum "1"); ("title", JStr " a ")]; JNum "7"]
  ∧ Forall (fun q : quote => ∃ u, category q = Some ("Server-" +:+ u))
      [mkQuote "a" (Some "Server-1"); mkQuote "" (Some "Server-undefined")].
Proof.
  apply (proj2 (fetchServerQuotes_payload
                  [JObj [("userId", JNum "1"); ("title", JStr " a ")]; JNum "7"])).
  reflexivity.
Defined.

(** A title that is an object with a [toString] member of its own makes the
    fetch throw, and so does such a user id. *)
Example fetchServerQuotes_unconvertible :
  fetchServerQuotes
    (FetchResponse true
       (Some (JArr [JObj [("title", JObj [("toString", JNum "1")]); ("userId", JNum "1")]])))
  = None
  ∧ fetchServerQuotes
      (FetchResponse true
         (Some (JArr [JObj [("title", JStr "a");
                            ("userId", JArr [JObj [("toString", JNull)]])]])))
    = None
  ∧ fetchServerQuotes
      (FetchResponse true
         (Some (JArr [JObj [("title", JArr [JNum "1"; JNull; JObj []]);
                            ("userId", JNum "3")]])))
    = Some [mkQuote "1,,[object Object]" (Some "Server-3")].
Proof. repeat split. Qed.

(** X7.  Whatever a cycle appends to the store carries a category that begins
    with [Server-]: the default never replaces what the server sent. *)
Theorem doSync_appends_server_records (showNotification statusEl : bool)
    (qs : list quote) (o : FetchOutcome) :
  Forall (fun q => ∃ u, category q = Some ("Server-" +:+ u))
    (drop (length qs) (syncStore (doSync showNotification statusEl qs o))).
Proof.
  unfold doSync. destruct (fetchServerQuotes o) as [serverQuotes|] eqn:Hf;
    cbn [syncStore].
  - assert (Hcat : Forall (fun q => ∃ u, category q = Some ("Server-" +:+ u))
                     serverQuotes).
    { destruct o as [|[] [[]|]]; try discriminate.
      by apply (fetchServerQuotes_payload_aux items). }
    rewrite store_mergeWithServer.
    destruct (mergeLoop_shape qs serverQuotes (mkDetails 0 0 0))
      as (qs' & -> & Hlen & _).
    rewrite <- Hlen, drop_app_length. apply Forall_fmap, Forall_forall.
    intros r [_ Hr]%list_elem_of_filter.
    rewrite Forall_forall in Hcat. destruct (Hcat r Hr) as [u Hu].
    exists u. cbn. by rewrite Hu.
  - rewrite drop_all. constructor.
Qed.

(** ** The category list and the filter *)

#[local] Instance codeUnitLe_total : Total codeUnitLe.
Proof. intros a b. apply String.leb_total. Qed.

Section Categories.

Implicit Types (quotes : list quote) (q : quote) (c : string).

Lemma setValues_from (acc xs : list string) :
  NoDup acc →
  NoDup (foldl setAdd acc xs)
  ∧ ∀ x, x ∈ foldl setAdd acc xs ↔ x ∈ acc ∨ x ∈ xs.
Proof.
  revert acc. induction xs as [|y xs IH]; intros acc Hacc; simpl.
  - split; [done|]. intros x. rewrite elem_of_nil. tauto.
  - assert (Hadd : NoDup (setAdd acc y) ∧ ∀ x, x ∈ setAdd acc y ↔ x ∈ acc ∨ x = y).
    { unfold setAdd. case_decide as Hy.
      - split; [done|]. intros x. split; [tauto|]. by intros [?| ->].
      - split.
        + apply NoDup_app. split; [done|]. split; [|apply NoDup_singleton].
          intros x Hx Hx'. by apply list_elem_of_singleton in Hx' as ->.
        + intros x. by rewrite elem_of_app, list_elem_of_singleton. }
    destruct Hadd as [Hnd Hin]. destruct (IH _ Hnd) as [IH1 IH2].
    split; [done|]. intros x. rewrite IH2, Hin, elem_of_cons. tauto.
Qed.

Lemma categoriesOf_elem quotes c :
  c ∈ categoriesOf quotes ↔ ∃ q, q ∈ quotes ∧ orUncategorized (category q) = c.
Proof.
  unfold categoriesOf. rewrite merge_sort_Permutation.
  destruct (setValues_from [] ((fun q => orUncategorized (category q)) <$> quotes)
              NoDup_nil_2) as [_ Hin].
  unfold setValues. rewrite Hin, elem_of_nil, list_elem_of_fmap.
  split.
  - intros [[]|(q & -> & Hq)]. eauto.
  - intros (q & Hq & <-). right. eauto.
Qed.

Lemma getFilteredQuotes_nonempty quotes c :
  c ≠ "" → c ≠ "all" →
  (getFilteredQuotes quotes c ≠ [] ↔ c ∈ categoriesOf quotes).
Proof.
  intros Hc Hall. unfold getFilteredQuotes.
  apply truthy_key_nonempty in Hc. rewrite Hc.
  apply String.eqb_neq in Hall. rewrite Hall. cbn [negb orb].
  rewrite categoriesOf_elem. split.
  - intros Hne.
    destruct (filter (fun q => orUncategorized (category q) = c) quotes)
      as [|q l] eqn:Hf; [done|].
    assert (Hq : q ∈ filter (fun q => orUncategorized (category q) = c) quotes)
      by (rewrite Hf; by left).
    apply list_elem_of_filter in Hq as [? ?]. eauto.
  - intros (q & Hq & Hcat) Hnil.
    assert (Hin : q ∈ filter (fun q => orUncategorized (category q) = c) quotes)
      by by apply list_elem_of_filter.
    rewrite Hnil in Hin. by apply elem_of_nil in Hin.
Qed.

End Categories.

(** X8.  The category list is sorted by code units, repeats nothing, and
    holds exactly the categories of the quotes, a missing or empty one counted
    as [Uncategorized]. *)
Theorem categoriesOf_sorted_distinct (quotes : list quote) :
  Sorted codeUnitLe (categoriesOf quotes)
  ∧ NoDup (categoriesOf quotes)
  ∧ ∀ c, c ∈ categoriesOf quotes
         ↔ ∃ q, q ∈ quotes ∧ orUncategorized (category q) = c.
Proof.
  split; [apply Sorted_merge_sort, _|]. split; [|apply categoriesOf_elem].
  unfold categoriesOf. rewrite merge_sort_Permutation.
  apply (setValues_from [] _ NoDup_nil_2).
Qed.

(** X9.  A category other than the empty string and [all] is offered in the
    list exactly when filtering by it yields a quote. *)
Theorem listed_iff_filter_nonempty (quotes : list quote) (c : string) :
  c ≠ "" → c ≠ "all" →
  (c ∈ categoriesOf quotes ↔ getFilteredQuotes quotes c ≠ []).
Proof. intros Hc Hall. symmetry. by apply getFilteredQuotes_nonempty. Qed.

Lemma listed_iff_filter_nonempty_witness :
  "Y" ∈ categoriesOf [qAX; qBY] ↔ getFilteredQuotes [qAX; qBY] "Y" ≠ [].
Proof. apply (listed_iff_filter_nonempty [qAX; qBY] "Y"); discriminate. Defined.

(** X10.  Whatever filter was saved, the value the select is given is one of
    its options, and filtering a non-empty store by it yields a quote. *)
Theorem restored_filter_shows_a_quote (quotes : list quote) (saved : option string) :
  (populateCategories quotes saved).2 ∈ (populateCategories quotes saved).1
  ∧ (quotes ≠ [] →
     getFilteredQuotes quotes (populateCategories quotes saved).2 ≠ []).
Proof.
  unfold populateCategories. cbn [fst snd].
  assert (Hall : quotes ≠ [] → getFilteredQuotes quotes "all" ≠ []) by done.
  destruct saved as [s|]; [|split; [by left|done]].
  destruct (JsString.truthy s) eqn:Hs; [|split; [by left|done]].
  destruct (String.eqb_spec s "all") as [->|Hne]; [split; [by left|done]|].
  cbn [andb orb]. case_bool_decide as Hin; [|split; [by left|done]].
  split; [by right|]. intros _.
  apply getFilteredQuotes_nonempty; [by apply truthy_key_nonempty|done..].
Qed.

Lemma restored_filter_shows_a_quote_witness :
  getFilteredQuotes [qAX; qBY] (populateCategories [qAX; qBY] (Some "Y")).2 ≠ [].
Proof.
  apply (proj2 (restored_filter_shows_a_quote [qAX; qBY] (Some "Y"))). discriminate.
Defined.

(** X11.  [addQuote] rejects a text that is blank after trimming and leaves
    the store alone; otherwise it appends one quote whose text is the trimmed
    input and whose category is the trimmed input or [Uncategorized], never
    empty.  The new category is then among the listed ones and filtering by it
    finds the new quote. *)
Theorem addQuote_spec (quotes : list quote) (textValue catValue : string) :
  (JsString.trim textValue = "" →
     addQuote quotes textValue catValue = (quotes, None))
  ∧ (JsString.trim textValue ≠ "" →
     ∃ c, c ≠ ""
       ∧ (c = JsString.trim catValue ∨ JsString.trim catValue = "" ∧ c = "Uncategorized")
       ∧ addQuote quotes textValue catValue
         = (quotes ++ [mkQuote (JsString.trim textValue) (Some c)],
            Some (mkQuote (JsString.trim textValue) (Some c)))
       ∧ c ∈ categoriesOf (addQuote quotes textValue catValue).1
       ∧ mkQuote (JsString.trim textValue) (Some c)
         ∈ getFilteredQuotes (addQuote quotes textValue catValue).1 c).
Proof.
  unfold addQuote. split.
  - by intros ->.
  - intros Ht. apply truthy_key_nonempty in Ht. rewrite Ht. cbn [negb fst].
    set (c := if JsString.truthy (JsString.trim catValue)
              then JsString.trim catValue else "Uncategorized").
    assert (Hc : JsString.truthy c = true).
    { unfold c. by destruct (JsString.truthy (JsString.trim catValue)) eqn:E. }
    assert (Hor : orUncategorized (Some c) = c) by (cbn; by rewrite Hc).
    exists c. split; [by apply truthy_key_nonempty|]. split.
    { unfold c. destruct (JsString.trim catValue); cbn; [right|left]; done. }
    split; [done|]. split.
    + apply categoriesOf_elem.
      exists (mkQuote (JsString.trim textValue) (Some c)). split; [|exact Hor].
      apply elem_of_app. right. by left.
    + unfold getFilteredQuotes. rewrite Hc. cbn [negb orb].
      destruct (String.eqb c "all"); cbn [orb].
      * apply elem_of_app. right. by left.
      * apply list_elem_of_filter. split; [exact Hor|].
        apply elem_of_app. right. by left.
Qed.

Lemma addQuote_spec_witness :
  addQuote [qAX] "   " "Life" = ([qAX], None)
  ∧ ∃ c, c ≠ ""
      ∧ (c = JsString.trim "  " ∨ JsString.trim "  " = "" ∧ c = "Uncategorized")
      ∧ addQuote [qAX] " Carpe diem " "  "
        = ([qAX] ++ [mkQuote (JsString.trim " Carpe diem ") (Some c)],
           Some (mkQuote (JsString.trim " Carpe diem ") (Some c)))
      ∧ c ∈ categoriesOf (addQuote [qAX] " Carpe diem " "  ").1
      ∧ mkQuote (JsString.trim " Carpe diem ") (Some c)
        ∈ getFilteredQuotes (addQuote [qAX] " Carpe diem " "  ").1 c.
Proof.
  split.
  - apply (proj1 (addQuote_spec [qAX] "   " "Life")). reflexivity.
  - apply (proj2 (addQuote_spec [qAX] " Carpe diem " "  ")). vm_compute. discriminate.
Defined.

(** ** Saving, loading, exporting and importing *)

Section RoundTrips.

Implicit Types (qs quotes : list storedQuote) (q : storedQuote).



Lemma storedOf_serialised q :
  Json.truthy (category q) = true →
  storedOf (JObj [("text", JStr (text q)); ("category", category q)]) = Some q.
Proof. intros Hc. unfold storedOf. cbn. rewrite Hc. by destruct q. Qed.

Lemma omap_storedOf_quotesToJson qs :
  Forall (fun q => Json.truthy (category q) = true) qs →
  omap storedOf
    ((fun q => JObj [("text", JStr (text q)); ("category", category q)]) <$> qs)
  = qs.
Proof.
  induction 1 as [|q qs Hq _ IH]; [done|].
  cbn [fmap list_fmap omap list_omap]. by rewrite storedOf_serialised, IH.
Qed.

End RoundTrips.

Lemma forallb_Forall_true {A} (f : A → bool) (l : list A) :
  forallb f l = true ↔ Forall (fun x => f x = true) l.
Proof.
  induction l as [|x l IH]; cbn [forallb]; [split; [by constructor|done]|].
  by rewrite andb_true_iff, Forall_cons, IH.
Qed.

Lemma populateCategoriesThrows_false (page : Page) (quotes : list storedQuote) :
  Forall (fun q => Json.stringable (shownCategory q) = true) quotes →
  populateCategoriesThrows page quotes = false.
Proof.
  intros H. apply forallb_Forall_true in H. unfold populateCategoriesThrows.
  rewrite H. by destruct (hasSelect page).
Qed.




(** An entry whose category is an object with a [toString] member of its own
    is appended and saved, and then the handler alerts: with the select on
    the page nothing is reported, and with only the display the feedback has
    been written before [showQuote] throws.  Without either element the import
    goes through. *)
Example importFromJsonFile_late_failure :
  let file := JArr [JObj [("text", JStr "a");
                          ("category", JObj [("toString", JNum "1")])]] in
  let pushed := mkQuote "a" (JObj [("toString", JNum "1")]) in
  importFromJsonFile (parseOnly "file" file) (mkPage true true true) [] "file"
  = mkImportResult [pushed] true None true
  ∧ importFromJsonFile (parseOnly "file" file) (mkPage false true true) [] "file"
    = mkImportResult [pushed] true (Some 1) true
  ∧ importFromJsonFile (parseOnly "file" file) (mkPage false true false) [] "file"
    = mkImportResult [pushed] true (Some 1) false.
Proof. repeat split. Qed.

(** X13.  Save then load is the identity on a store whose categories are all
    truthy: if the stored text parses to the value [saveQuotes] serialised,
    [loadQuotes] replaces whatever the store held by exactly those quotes, in
    order. *)
Theorem save_load_roundtrip (JSON_parse : string → option json)
    (qs prior : list storedQuote) (raw : string) :
  Forall (fun q => Json.truthy (category q) = true) qs →
  raw ≠ "" →
  JSON_parse raw = Some (quotesToJson qs) →
  loadQuotes JSON_parse prior (Some raw) = (qs, Normal).
Proof.
  intros Hqs Hraw Hp. unfold loadQuotes, loadQuotesTry.
  apply truthy_key_nonempty in Hraw. rewrite Hraw, Hp. unfold quotesToJson.
  by rewrite loadEntries_omap, omap_storedOf_quotesToJson.
Qed.

Lemma save_load_roundtrip_witness :
  loadQuotes
    (parseOnly "saved" (quotesToJson [mkQuote "a" (JStr "Life"); mkQuote "b" (JStr "Humor")]))
    [mkQuote "old" (JStr "X")] (Some "saved")
  = ([mkQuote "a" (JStr "Life"); mkQuote "b" (JStr "Humor")], Normal).
Proof.
  apply (save_load_roundtrip
           (parseOnly "saved"
              (quotesToJson [mkQuote "a" (JStr "Life"); mkQuote "b" (JStr "Humor")]))
           [mkQuote "a" (JStr "Life"); mkQuote "b" (JStr "Humor")]
           [mkQuote "old" (JStr "X")] "saved").
  - by repeat constructor.
  - discriminate.
  - reflexivity.
Defined.

(** X14.  Importing the store's own export, all categories being truthy:
    for an empty store the import alerts, there being no valid entry, and
    nothing changes; otherwise a second copy of every quote is appended and
    saved, and when moreover every category converts to a string no alert
    follows and the feedback element, when the page has one, reports the
    number of quotes. *)
Theorem export_then_import (JSON_parse : string → option json) (page : Page)
    (qs : list storedQuote) (fileText : string) :
  Forall (fun q => Json.truthy (category q) = true) qs →
  JSON_parse fileText = Some (quotesToJson qs) →
  let r := importFromJsonFile JSON_parse page qs fileText in
  (qs = [] → r = mkImportResult [] false None true)
  ∧ (qs ≠ [] →
     importStore r = qs ++ qs ∧ importSaved r = true
     ∧ (Forall (fun q => Json.stringable (category q) = true) qs →
        r = mkImportResult (qs ++ qs) true
              (if hasFeedback page then Some (length qs) else None) false)).
Proof.
  intros Hqs Hp. cbv zeta. unfold importFromJsonFile. rewrite Hp.
  unfold quotesToJson. rewrite omap_storedOf_quotesToJson by done. split.
  - by intros ->.
  - intros Hne. destruct (last qs) as [lastQ|] eqn:Hlast;
      [|by apply last_None in Hlast].
    split; [by destruct (populateCategoriesThrows page (qs ++ qs))|].
    split; [by destruct (populateCategoriesThrows page (qs ++ qs))|].
    intros Hstr. rewrite populateCategoriesThrows_false.
    + unfold showQuoteThrows.
      apply last_Some_elem_of in Hlast.
      rewrite (proj1 (Forall_forall _ _) Hstr _ Hlast).
      by destruct (hasDisplay page).
    + apply Forall_forall. intros q Hq.
      assert (q ∈ qs) as Hin by set_solver.
      unfold shownCategory.
      rewrite (proj1 (Forall_forall _ _) Hqs _ Hin).
      exact (proj1 (Forall_forall _ _) Hstr _ Hin).
Qed.

Lemma export_then_import_witness :
  importFromJsonFile (parseOnly "file" (quotesToJson [mkQuote "a" (JStr "Life")]))
    (mkPage true true true) [mkQuote "a" (JStr "Life")] "file"
  = mkImportResult [mkQuote "a" (JStr "Life"); mkQuote "a" (JStr "Life")]
      true (Some 1) false.
Proof.
  apply (proj2 (export_then_import
                  (parseOnly "file" (quotesToJson [mkQuote "a" (JStr "Life")]))
                  (mkPage true true true) [mkQuote "a" (JStr "Life")] "file"
                  ltac:(by repeat constructor) eq_refl)).
  - discriminate.
  - by repeat constructor.
Defined.

(** ** escapeHtml *)

Section Escape.

Implicit Types (s t : string) (a c : ascii).

Lemma replaceAll_app c (by_ : string) s t :
  replaceAll c by_ (s +:+ t) = replaceAll c by_ s +:+ replaceAll c by_ t.
Proof.
  induction s as [|a s IH]; [done|].
  change (String a s +:+ t) with (String a (s +:+ t)).
  cbn [replaceAll]. rewrite IH. destruct (Ascii.eqb a c); [|done].
  generalize (replaceAll c by_ s) (replaceAll c by_ t). clear.
  intros u v. induction by_ as [|b w IHw]; [done|].
  change (String b (w +:+ u +:+ v) = String b ((w +:+ u) +:+ v)). by f_equal.
Qed.

Lemma escapeHtml_cons a s :
  escapeHtml (String a s) = escapeChar a +:+ escapeHtml s.
Proof.
  unfold escapeHtml, escapeChar. cbn [replaceAll].
  destruct (Ascii.eqb a "&") eqn:E1.
  { by rewrite !replaceAll_app. }
  cbn [replaceAll]. destruct (Ascii.eqb a "<") eqn:E2.
  { by rewrite !replaceAll_app. }
  cbn [replaceAll]. destruct (Ascii.eqb a ">") eqn:E3.
  { by rewrite !replaceAll_app. }
  cbn [replaceAll]. destruct (Ascii.eqb a "034") eqn:E4.
  { by rewrite !replaceAll_app. }
  cbn [replaceAll]. destruct (Ascii.eqb a "'") eqn:E5; [done|].
  done.
Qed.

Lemma chars_app s t : chars (s +:+ t) = chars s ++ chars t.
Proof.
  induction s as [|a s IH]; [done|].
  change (a :: chars (s +:+ t) = a :: (chars s ++ chars t)). by f_equal.
Qed.

Lemma escapeChar_safe a b : b ∈ chars (escapeChar a) → ¬ markup b.
Proof.
  unfold escapeChar, markup.
  destruct (Ascii.eqb_spec a "&") as [->|N1]; [intros H; in_chars H|].
  destruct (Ascii.eqb_spec a "<") as [->|N2]; [intros H; in_chars H|].
  destruct (Ascii.eqb_spec a ">") as [->|N3]; [intros H; in_chars H|].
  destruct (Ascii.eqb_spec a "034") as [->|N4]; [intros H; in_chars H|].
  destruct (Ascii.eqb_spec a "'") as [->|N5]; [intros H; in_chars H|].
  cbn. intros ->%list_elem_of_singleton. intros [?|[?|[?|?]]]; congruence.
Qed.

End Escape.

(** X15.  [escapeHtml] turns each character into its entity on its own: the
    five replacements, run one after the other, never touch an entity that an
    earlier one wrote. *)
Theorem escapeHtml_charwise (s : string) : escapeHtml s = escapeEach s.
Proof.
  induction s as [|a s IH]; [done|].
  rewrite escapeHtml_cons. cbn [escapeEach]. by rewrite IH.
Qed.

(** X16.  The result of [escapeHtml] holds no [<], no [>] and no quote
    character, and a string free of the five special characters comes back
    unchanged. *)
Theorem escapeHtml_safe (s : string) :
  (∀ b, b ∈ chars (escapeHtml s) → ¬ markup b)
  ∧ ((∀ a, a ∈ chars s → ¬ markup a ∧ a ≠ "&"%char) → escapeHtml s = s).
Proof.
  split.
  - induction s as [|a s IH]; intros b Hb.
    + by apply elem_of_nil in Hb.
    + rewrite escapeHtml_cons, chars_app in Hb.
      apply elem_of_app in Hb as [Hb|Hb]; [by eapply escapeChar_safe|by apply IH].
  - induction s as [|a s IH]; intros Hs; [done|].
    rewrite escapeHtml_cons, IH by (intros b Hb; apply Hs; by right).
    destruct (Hs a) as [Hm Ha]; [by left|]. unfold markup in Hm.
    unfold escapeChar.
    destruct (Ascii.eqb_spec a "&"); [done|].
    destruct (Ascii.eqb_spec a "<"); [tauto|].
    destruct (Ascii.eqb_spec a ">"); [tauto|].
    destruct (Ascii.eqb_spec a "034"); [tauto|].
    destruct (Ascii.eqb_spec a "'"); [tauto|]. done.
Qed.

Lemma escapeHtml_safe_witness : escapeHtml "Life is short" = "Life is short".
Proof.
  apply (proj2 (escapeHtml_safe "Life is short")).
  intros a Ha. unfold markup. in_chars_all Ha.
Defined.

(** ** The sync scheduler *)

Lemma liveTimers_app (es1 es2 : list TimerEffect) (live : list positive) :
  liveTimers (es1 ++ es2) live = liveTimers es2 (liveTimers es1 live).
Proof.
  revert live. induction es1 as [|e es1 IH]; intros live; [done|].
  destruct e; cbn; apply IH.
Qed.

Lemma syncCall_live (c : SyncCall) (s : Scheduler) :
  liveTimers (syncCall c s).2 (option_list (syncTimerId s))
  = option_list (syncTimerId (syncCall c s).1).
Proof.
  destruct s as [[id|] n], c; cbn [syncCall startSync stopSync autoSyncClick
    syncTimerId fst snd liveTimers app]; try done;
    change (option_list (Some id)) with [id];
    rewrite filter_cons, decide_False by (by intros H; apply H); done.
Qed.

(** X17.  Whatever calls are made to [startSync], [stopSync] and the
    auto-sync button, starting from an idle scheduler, at most one interval
    timer is running afterwards, and it is the one [syncTimerId] holds; when
    [syncTimerId] is [null] none is running. *)
Theorem scheduler_single_timer (cs : list SyncCall) (counter : positive) :
  liveTimers (syncCalls cs (mkScheduler None counter)).2 []
  = option_list (syncTimerId (syncCalls cs (mkScheduler None counter)).1).
Proof.
  change (@nil positive) with (option_list (syncTimerId (mkScheduler None counter))).
  generalize (mkScheduler None counter). clear counter.
  induction cs as [|c cs IH]; intros s; [done|]. cbn [syncCalls].
  pose proof (syncCall_live c s) as Hc.
  destruct (syncCall c s) as [s1 es1]. specialize (IH s1).
  destruct (syncCalls cs s1) as [s2 es2]. cbn [fst snd] in *.
  by rewrite liveTimers_app, Hc.
Qed.

(** ** Joining on the exact text *)

Section FindIndex.

Implicit Types (l k : list quote) (q x : quote) (t : string) (i : nat).

Lemma findIndex_Some t l i :
  Part000.findIndex t l = Some i → ∃ q, l !! i = Some q ∧ text q = t.
Proof.
  revert i. induction l as [|q l IH]; intros i; [done|]. cbn.
  case_decide as Hq.
  - intros [= <-]. eauto.
  - destruct (Part000.findIndex t l) as [j|]; [|done].
    intros [= <-]. by apply IH.
Qed.

Lemma findIndex_None t l : Part000.findIndex t l = None ↔ t ∉ text <$> l.
Proof.
  induction l as [|q l IH]; cbn.
  - split; [|done]. intros _ H. by apply elem_of_nil in H.
  - case_decide as Hq.
    + split; [done|]. intros H. exfalso. apply H. rewrite Hq. by left.
    + destruct (Part000.findIndex t l) as [j|]; cbn.
      * split; [done|]. intros H. exfalso.
        assert (Hin : t ∉ text <$> l) by (intros ?; apply H; by right).
        by apply IH in Hin.
      * split; [|done]. intros _ [?|Hin]%elem_of_cons; [congruence|].
        by apply (proj1 IH).
Qed.

Lemma findIndex_texts t l k :
  text <$> l = text <$> k → Part000.findIndex t l = Part000.findIndex t k.
Proof.
  revert k. induction l as [|q l IH]; intros [|x k]; try done.
  cbn. intros [= Hq Hl]. rewrite Hq, (IH k Hl). done.
Qed.

Lemma findIndex_app_l t l k i :
  Part000.findIndex t l = Some i → Part000.findIndex t (l ++ k) = Some i.
Proof.
  revert i. induction l as [|q l IH]; intros i; [done|]. cbn.
  case_decide; [done|].
  destruct (Part000.findIndex t l) as [j|]; [|done].
  intros [= <-]. by rewrite (IH j).
Qed.

Lemma findIndex_app_r t l x :
  Part000.findIndex t l = None → text x = t →
  Part000.findIndex t (l ++ [x]) = Some (length l).
Proof.
  intros Hn Hx. induction l as [|q l IH]; cbn in *.
  - by rewrite decide_True.
  - case_decide; [done|].
    destruct (Part000.findIndex t l) as [j|]; [done|]. by rewrite IH.
Qed.

(** Writing a record of the same text into a slot moves no one. *)
Lemma texts_insert_same l i q x :
  l !! i = Some q → text x = text q → text <$> <[i := x]> l = text <$> l.
Proof.
  intros Hq Hx. rewrite list_fmap_insert. apply list_insert_id.
  by rewrite list_lookup_fmap, Hq, Hx.
Qed.

Lemma textSettled_insert (good : quote → Prop) t t' l i q x :
  l !! i = Some q → text q = t' → text x = t' → t ≠ t' →
  textSettled good t l → textSettled good t (<[i := x]> l).
Proof.
  intros Hq Hqt Hx Hne (j & y & Hj & Hy & Hg).
  exists j, y. split; [|split; [|done]].
  - rewrite <- Hj. apply findIndex_texts. apply (texts_insert_same _ _ q); congruence.
  - rewrite list_lookup_insert_ne; [done|]. intros ->.
    apply findIndex_Some in Hj as (y' & Hy' & Ht). congruence.
Qed.

Lemma textSettled_app (good : quote → Prop) t l k :
  textSettled good t l → textSettled good t (l ++ k).
Proof.
  intros (j & y & Hj & Hy & Hg). exists j, y.
  split; [by apply findIndex_app_l|]. split; [|done].
  rewrite lookup_app_l; [done|by eapply lookup_lt_Some].
Qed.

Lemma textSettled_elem (good : quote → Prop) t l :
  textSettled good t l → t ∈ text <$> l.
Proof.
  intros (j & y & Hj & Hy & _).
  destruct (decide (t ∈ text <$> l)) as [|Hn]; [done|].
  apply findIndex_None in Hn. congruence.
Qed.

End FindIndex.

(** ** syncWithServer of the earlier variant *)

Section SyncWithServer.

Implicit Types (qs rs : list quote) (sq : quote).

Lemma syncStep_settles (st : list quote * nat) sq :
  textSettled (fun q => category q = category sq) (text sq) (Part000.syncStep st sq).1
  ∧ (∀ (good : quote → Prop) t,
       t ≠ text sq → textSettled good t st.1 →
       textSettled good t (Part000.syncStep st sq).1)
  ∧ (∀ t, t ∈ text <$> st.1 → t ∈ text <$> (Part000.syncStep st sq).1).
Proof.
  destruct st as [quotes n]. unfold Part000.syncStep. cbn [fst].
  destruct (Part000.findIndex (text sq) quotes) as [idx|] eqn:Hf.
  - destruct (findIndex_Some _ _ _ Hf) as (q & Hq & Ht). rewrite Hq.
    case_decide as Hc; cbn [fst].
    + split; [|split].
      * exists idx, sq. split; [|split; [|done]].
        -- rewrite <- Hf. apply findIndex_texts. by apply (texts_insert_same _ _ q).
        -- apply list_lookup_insert_eq. by eapply lookup_lt_Some.
      * intros good t Hne Hs. by apply (textSettled_insert _ _ (text sq) _ _ q).
      * intros t. by rewrite (texts_insert_same _ _ q).
    + split; [|split; [done|done]].
      exists idx, q. split; [done|]. split; [done|].
      by destruct (decide (category q = category sq)).
  - cbn [fst]. split; [|split].
    + exists (length quotes), sq. split; [by apply findIndex_app_r|].
      split; [|done]. by rewrite lookup_app_r, Nat.sub_diag.
    + intros good t _. apply textSettled_app.
    + intros t Ht. rewrite fmap_app. apply elem_of_app. by left.
Qed.

Lemma syncLoop_settles qs n rs :
  NoDup (text <$> rs) →
  ∀ sq, sq ∈ rs →
    textSettled (fun q => category q = category sq) (text sq)
      (foldl Part000.syncStep (qs, n) rs).1.
Proof.
  induction rs as [|r rs IH] using rev_ind; intros Hnd sq Hsq.
  - by apply elem_of_nil in Hsq.
  - rewrite fmap_app in Hnd. apply NoDup_app in Hnd as (Hnd & Hfresh & _).
    rewrite foldl_app. cbn [foldl].
    destruct (syncStep_settles (foldl Part000.syncStep (qs, n) rs) r)
      as (Hr & Hkeep & _).
    apply elem_of_app in Hsq as [Hsq|Hsq].
    + apply Hkeep; [|by apply IH].
      intros Heq. apply (Hfresh (text sq)); [by apply list_elem_of_fmap_2|].
      rewrite Heq. by left.
    + by apply list_elem_of_singleton in Hsq as ->.
Qed.

Lemma syncStep_settled (quotes : list quote) n sq :
  textSettled (fun q => category q = category sq) (text sq) quotes →
  Part000.syncStep (quotes, n) sq = (quotes, n).
Proof.
  intros (idx & q & Hf & Hq & Hc). unfold Part000.syncStep.
  rewrite Hf, Hq. by rewrite decide_False by (by intros H; apply H).
Qed.

Lemma syncWithServer_store qs rs :
  (Part000.syncWithServer qs rs).1 = (foldl Part000.syncStep (qs, 0) rs).1.
Proof. unfold Part000.syncWithServer. by destruct (foldl _ _ _). Qed.

End SyncWithServer.

(** X18.  In the earlier variant, after [syncWithServer] the store holds an
    entry with the exact text of every server quote. *)
Theorem syncWithServer_covers (qs rs : list quote) (sq : quote) :
  sq ∈ rs → text sq ∈ text <$> (Part000.syncWithServer qs rs).1.
Proof.
  intros Hsq. rewrite syncWithServer_store.
  assert (H : text sq ∈ text <$> (foldl Part000.syncStep (qs, 0) rs).1).
  { generalize (qs, 0). induction rs as [|r rs IH]; intros st.
    - by apply elem_of_nil in Hsq.
    - cbn [foldl]. apply elem_of_cons in Hsq as [->|Hsq]; [|by apply IH].
      destruct (syncStep_settles st r) as (Hr & _ & _).
      apply textSettled_elem in Hr. revert Hr.
      generalize (Part000.syncStep st r). clear.
      induction rs as [|r' rs IH]; intros st Hin; [done|].
      cbn [foldl]. apply IH. by apply syncStep_settles. }
  done.
Qed.

Lemma syncWithServer_covers_witness :
  text qBY ∈ text <$> (Part000.syncWithServer [qAX] [qAZ; qBY]).1.
Proof. apply (syncWithServer_covers [qAX] [qAZ; qBY] qBY). set_solver. Defined.

(** X19.  In the earlier variant, syncing twice with server quotes whose
    texts are pairwise distinct changes nothing the second time and counts no
    conflict, though it saves again. *)
Theorem syncWithServer_twice (qs rs : list quote) :
  NoDup (text <$> rs) →
  Part000.syncWithServer (Part000.syncWithServer qs rs).1 rs
  = ((Part000.syncWithServer qs rs).1,
     [SaveQuotes (Part000.syncWithServer qs rs).1;
      PopulateCategories (Part000.syncWithServer qs rs).1;
      NotifySync (length rs) 0]).
Proof.
  intros Hnd.
  pose proof (syncLoop_settles qs 0 rs Hnd) as Hset.
  rewrite !syncWithServer_store.
  set (store1 := (foldl Part000.syncStep (qs, 0) rs).1) in *.
  assert (Hfix : foldl Part000.syncStep (store1, 0) rs = (store1, 0)).
  { clearbody store1. clear Hnd. induction rs as [|r rs IH]; [done|]. cbn [foldl].
    rewrite syncStep_settled by (apply Hset; by left).
    apply IH. intros sq Hsq. apply Hset. by right. }
  unfold Part000.syncWithServer. by rewrite Hfix.
Qed.

Lemma syncWithServer_twice_witness :
  Part000.syncWithServer (Part000.syncWithServer [qAX] [qAZ; qBY]).1 [qAZ; qBY]
  = ([qAZ; qBY], [SaveQuotes [qAZ; qBY]; PopulateCategories [qAZ; qBY]; NotifySync 2 0]).
Proof.
  apply (syncWithServer_twice [qAX] [qAZ; qBY]).
  vm_compute. repeat constructor; set_solver.
Defined.

(** ** The variant with a simulated server *)

Section TextMaps.

Import Simulated.

Implicit Types (m : list (string * quote)) (qs : list quote) (q v : quote)
  (k t : string).

Lemma keys_mapSet k v m : (mapSet k v m).*1 = setAdd (m.*1) k.
Proof.
  induction m as [|[k' v'] m IH]; [done|]. cbn [mapSet].
  destruct (decide (k' = k)) as [->|Hk].
  - unfold setAdd. cbn. rewrite decide_True by by left. done.
  - cbn. rewrite IH. unfold setAdd.
    destruct (decide (k ∈ m.*1)) as [Hin|Hin].
    + rewrite decide_True by by right. done.
    + rewrite decide_False; [done|].
      intros [?|?]%elem_of_cons; [congruence|done].
Qed.

Lemma keys_foldl_mapSet m qs :
  (foldl (fun m q => mapSet (text q) q m) m qs).*1
  = foldl setAdd (m.*1) (text <$> qs).
Proof.
  revert m. induction qs as [|q qs IH]; intros m; [done|].
  cbn [foldl fmap list_fmap]. by rewrite IH, keys_mapSet.
Qed.

Lemma keys_byText qs : (byText qs).*1 = setValues (text <$> qs).
Proof. apply keys_foldl_mapSet. Qed.

Lemma NoDup_setValues (xs : list string) : NoDup (setValues xs).
Proof. apply (setValues_from [] xs NoDup_nil_2). Qed.

Lemma elem_of_setValues (xs : list string) x : x ∈ setValues xs ↔ x ∈ xs.
Proof.
  unfold setValues.
  rewrite (proj2 (setValues_from [] xs NoDup_nil_2) x), elem_of_nil. tauto.
Qed.

Lemma mapGet_is_Some k m : is_Some (mapGet k m) ↔ k ∈ m.*1.
Proof.
  induction m as [|[k' v'] m IH]; cbn.
  - split; [by intros [? ?]|]. intros H. by apply elem_of_nil in H.
  - case_decide as Hk.
    + subst. split; [by left|by eexists].
    + rewrite IH. split; [by right|].
      intros [?|?]%elem_of_cons; [congruence|done].
Qed.

Lemma mapGet_mapSet k k' v m :
  mapGet k' (mapSet k v m) = if decide (k = k') then Some v else mapGet k' m.
Proof.
  induction m as [|[k0 v0] m IH]; cbn.
  - by repeat case_decide.
  - repeat (case_decide; cbn; subst; try congruence).
Qed.

Lemma byText_snoc qs q : byText (qs ++ [q]) = mapSet (text q) q (byText qs).
Proof. unfold byText. by rewrite foldl_app. Qed.

Lemma values_mapSet k v m x :
  x ∈ (mapSet k v m).*2 → x = v ∨ x ∈ m.*2.
Proof.
  induction m as [|[k0 v0] m IH]; cbn.
  - intros ->%list_elem_of_singleton. by left.
  - case_decide; cbn.
    + intros [->|?]%elem_of_cons; [by left|right; by right].
    + intros [->|Hx]%elem_of_cons; [right; by left|].
      destruct (IH Hx) as [?|?]; [by left|right; by right].
Qed.

Lemma keyed_mapSet k v m :
  text v = k → Forall (fun e => text e.2 = e.1) m →
  Forall (fun e => text e.2 = e.1) (mapSet k v m).
Proof.
  intros Hv. induction 1 as [|[k0 v0] m Hx Hm IH]; cbn.
  - by repeat constructor.
  - case_decide; constructor; done.
Qed.

Lemma keyed_byText qs : Forall (fun e => text e.2 = e.1) (byText qs).
Proof.
  induction qs as [|q qs IH] using rev_ind; [constructor|].
  rewrite byText_snoc. by apply keyed_mapSet.
Qed.

Lemma mapGet_byText qs q :
  NoDup (text <$> qs) → q ∈ qs → mapGet (text q) (byText qs) = Some q.
Proof.
  induction qs as [|x qs IH] using rev_ind; intros Hnd Hq.
  - by apply elem_of_nil in Hq.
  - rewrite fmap_app in Hnd. apply NoDup_app in Hnd as (Hnd & Hfresh & _).
    rewrite byText_snoc, mapGet_mapSet.
    apply elem_of_app in Hq as [Hq|Hq].
    + rewrite decide_False; [by apply IH|].
      intros Heq. apply (Hfresh (text q)); [by apply list_elem_of_fmap_2|].
      rewrite <- Heq. by left.
    + apply list_elem_of_singleton in Hq as ->. by rewrite decide_True.
Qed.

(** The first pass of [applyServerChanges], over the entries of a map. *)
Lemma applyLoop_inv qs0 (S : list (string * quote)) :
  NoDup (S.*1) → Forall (fun e => text e.2 = e.1) S →
  text <$> foldl (applyEntry (byText qs0)) qs0 S
  = (text <$> qs0) ++ filter (fun t => t ∉ text <$> qs0) (S.*1)
  ∧ ∀ e, e ∈ S →
      textSettled (fun q => q = serverRecord e.2) e.1
        (foldl (applyEntry (byText qs0)) qs0 S).
Proof.
  induction S as [|[t sq] S IH] using rev_ind; intros Hnd Hkey.
  - cbn. rewrite app_nil_r. split; [done|]. intros e He. by apply elem_of_nil in He.
  - rewrite fmap_app in Hnd. apply NoDup_app in Hnd as (Hnd & Hfresh & _).
    apply Forall_app in Hkey as [Hkey Ht]. rewrite Forall_singleton in Ht.
    cbn [fst snd] in Ht.
    destruct (IH Hnd Hkey) as [Htexts Hset]. clear IH.
    rewrite foldl_app, fmap_app, filter_app. cbn [foldl].
    set (store := foldl (applyEntry (byText qs0)) qs0 S) in *.
    assert (Hnew : ∀ e, e ∈ S → e.1 ≠ t).
    { intros e He Heq. apply (Hfresh t); [|by left].
      rewrite <- Heq. by apply list_elem_of_fmap_2. }
    unfold applyEntry.
    destruct (mapGet t (byText qs0)) as [loc|] eqn:Hhas.
    + assert (Hin0 : t ∈ text <$> qs0).
      { rewrite <- elem_of_setValues, <- keys_byText.
        apply mapGet_is_Some. by rewrite Hhas. }
      assert (Hin : t ∈ text <$> store).
      { rewrite Htexts. apply elem_of_app. by left. }
      destruct (Part000.findIndex t store) as [idx|] eqn:Hf;
        [|by apply findIndex_None in Hf].
      destruct (findIndex_Some _ _ _ Hf) as (q & Hq & Hqt).
      assert (Hsame : text <$> <[idx := serverRecord sq]> store = text <$> store).
      { apply (texts_insert_same _ _ q); [done|]. cbn. congruence. }
      split.
      * rewrite Hsame, Htexts. cbn [fmap list_fmap fst].
        rewrite filter_cons, decide_False by (by intros H; apply H).
        by rewrite filter_nil, app_nil_r.
      * intros e [He|He]%elem_of_app.
        -- apply (textSettled_insert _ _ t _ _ q); [done|done|by cbn|by apply Hnew|].
           by apply Hset.
        -- apply list_elem_of_singleton in He as ->. cbn [fst snd].
           exists idx, (serverRecord sq). split; [|split; [|done]].
           ++ rewrite <- Hf. by apply findIndex_texts.
           ++ apply list_lookup_insert_eq. by eapply lookup_lt_Some.
    + assert (Hout0 : t ∉ text <$> qs0).
      { rewrite <- elem_of_setValues, <- keys_byText.
        intros H. apply mapGet_is_Some in H as [? ?]. congruence. }
      assert (Hout : t ∉ text <$> store).
      { rewrite Htexts. intros [?|Hin]%elem_of_app; [done|].
        apply list_elem_of_filter in Hin as [_ Hin]. by apply (Hfresh t); [|left]. }
      split.
      * rewrite fmap_app, Htexts. cbn [fmap list_fmap fst].
        rewrite filter_cons, decide_True by done.
        rewrite filter_nil, <- app_assoc. cbn. by rewrite Ht.
      * intros e [He|He]%elem_of_app.
        -- apply textSettled_app. by apply Hset.
        -- apply list_elem_of_singleton in He as ->. cbn [fst snd].
           exists (length store), (serverRecord sq). split; [|split; [|done]].
           ++ apply findIndex_app_r; [by apply findIndex_None|by cbn].
           ++ by rewrite lookup_app_r, Nat.sub_diag.
Qed.

Lemma applyEntry_settled (store : list quote) t sq :
  textSettled (fun q => q = serverRecord sq) t store →
  applyEntry (byText store) store (t, sq) = store.
Proof.
  intros Hs. pose proof (textSettled_elem _ _ _ Hs) as Hin.
  destruct Hs as (idx & q & Hf & Hq & ->).
  unfold applyEntry.
  destruct (mapGet t (byText store)) as [loc|] eqn:Hhas.
  - rewrite Hf. by apply list_insert_id.
  - exfalso. rewrite <- elem_of_setValues, <- keys_byText in Hin.
    apply mapGet_is_Some in Hin as [? ?]. congruence.
Qed.

Lemma NoDup_byText_keys qs : NoDup ((byText qs).*1).
Proof. rewrite keys_byText. apply NoDup_setValues. Qed.

End TextMaps.

Lemma applyServerChanges_settled (qs sd : list quote) (e : string * quote) :
  e ∈ Simulated.byText sd →
  textSettled (fun q => q = Simulated.serverRecord e.2) e.1
    (Simulated.applyServerChanges qs sd).
Proof.
  apply (applyLoop_inv qs (Simulated.byText sd));
    [apply NoDup_byText_keys|apply keyed_byText].
Qed.

Lemma applyServerChanges_texts_eq (qs sd : list quote) :
  text <$> Simulated.applyServerChanges qs sd
  = (text <$> qs)
    ++ filter (fun t => t ∉ text <$> qs) (setValues (text <$> sd)).
Proof.
  rewrite <- keys_byText.
  apply (applyLoop_inv qs (Simulated.byText sd));
    [apply NoDup_byText_keys|apply keyed_byText].
Qed.

Lemma applyServerChanges_NoDup (qs sd : list quote) :
  NoDup (text <$> qs) → NoDup (text <$> Simulated.applyServerChanges qs sd).
Proof.
  intros Hnd. rewrite applyServerChanges_texts_eq. apply NoDup_app.
  split; [done|]. split.
  - intros t Ht [Hn _]%list_elem_of_filter. done.
  - apply NoDup_filter, NoDup_setValues.
Qed.

(** X20.  [applyServerChanges] keeps every quote's text where it was and
    appends each server text the store lacked exactly once, in the order the
    server first lists it; a store without repeated texts stays so. *)
Theorem applyServerChanges_texts (qs sd : list quote) :
  text <$> Simulated.applyServerChanges qs sd
  = (text <$> qs)
    ++ filter (fun t => t ∉ text <$> qs) (setValues (text <$> sd))
  ∧ (NoDup (text <$> qs) →
     NoDup (text <$> Simulated.applyServerChanges qs sd)).
Proof.
  split; [apply applyServerChanges_texts_eq|apply applyServerChanges_NoDup].
Qed.

Lemma applyServerChanges_texts_witness :
  NoDup (text <$> Simulated.applyServerChanges [qAX] [qAY; qBY; qAZ]).
Proof.
  apply (proj2 (applyServerChanges_texts [qAX] [qAY; qBY; qAZ])).
  vm_compute. repeat constructor; set_solver.
Defined.

(** X21.  Accepting the same server data a second time changes nothing. *)
Theorem applyServerChanges_twice (qs sd : list quote) :
  Simulated.applyServerChanges (Simulated.applyServerChanges qs sd) sd
  = Simulated.applyServerChanges qs sd.
Proof.
  pose proof (applyServerChanges_settled qs sd) as Hset.
  set (store1 := Simulated.applyServerChanges qs sd) in *. clearbody store1.
  unfold Simulated.applyServerChanges.
  induction (Simulated.byText sd) as [|[t sq] S IH]; [done|].
  cbn [foldl]. rewrite applyEntry_settled by (apply (Hset (t, sq)); by left).
  apply IH. intros e He. apply Hset. by right.
Qed.

(** X22.  Once the server data has been accepted into a store without
    repeated texts, a check against the same data finds nothing new and
    nothing changed. *)
Theorem accepted_changes_up_to_date (qs sd : list quote) :
  NoDup (text <$> qs) →
  Simulated.checkForServerUpdates (Simulated.applyServerChanges qs sd) sd
  = ([], []).
Proof.
  intros Hnd.
  pose proof (applyServerChanges_settled qs sd) as Hset.
  pose proof (applyServerChanges_NoDup qs sd Hnd) as Hnd1.
  pose proof (keyed_byText sd) as Hkey.
  set (store1 := Simulated.applyServerChanges qs sd) in *. clearbody store1.
  unfold Simulated.checkForServerUpdates.
  induction (Simulated.byText sd) as [|[t sq] S IH]; [done|].
  apply Forall_cons in Hkey as [Ht Hkey]. cbn [fst snd] in Ht.
  cbn [foldl].
  destruct (Hset (t, sq)) as (idx & q & Hf & Hq & ->); [by left|].
  cbn [fst snd] in *.
  assert (Hget : Simulated.mapGet t (Simulated.byText store1)
                 = Some (Simulated.serverRecord sq)).
  { rewrite <- Ht.
    change (text sq) with (text (Simulated.serverRecord sq)).
    apply mapGet_byText; [done|]. apply list_elem_of_lookup. eauto. }
  unfold Simulated.compareEntry at 2. rewrite Hget.
  rewrite decide_False.
  - apply IH; [|done]. intros e He. apply Hset. by right.
  - intros H. apply H. unfold Simulated.serverRecord. cbn [category].
    apply orUncategorized_idem.
Qed.

Lemma accepted_changes_up_to_date_witness :
  Simulated.checkForServerUpdates
    (Simulated.applyServerChanges [qAX] [qAY; qBY; qAZ]) [qAY; qBY; qAZ]
  = ([], []).
Proof.
  apply (accepted_changes_up_to_date [qAX] [qAY; qBY; qAZ]).
  vm_compute. repeat constructor; set_solver.
Defined.


Section ServerSide.

Import Simulated.

Implicit Types (m : list (string * quote)) (S Q : list quote) (q v : quote).

Lemma mapGet_elem k m v : mapGet k m = Some v → (k, v) ∈ m.
Proof.
  induction m as [|[k0 v0] m IH]; cbn; [done|].
  case_decide as Hk; [intros [= <-]; subst; by left|].
  intros Hget. right. by apply IH.
Qed.

Lemma values_byText S v : v ∈ (byText S).*2 → v ∈ S.
Proof.
  induction S as [|q S IH] using rev_ind; cbn.
  - intros H. by apply elem_of_nil in H.
  - rewrite byText_snoc. intros [->|H]%values_mapSet.
    + apply elem_of_app. right. by left.
    + apply elem_of_app. left. by apply IH.
Qed.

Lemma keyed_texts m :
  Forall (fun e => text e.2 = e.1) m → text <$> m.*2 = m.*1.
Proof. induction 1 as [|[k v] m Hk _ IH]; [done|]. cbn in *. by rewrite Hk, IH. Qed.

Lemma setAdd_elem (s : list string) x y : y ∈ s → y ∈ setAdd s x.
Proof.
  unfold setAdd. case_decide; [done|]. intros ?. apply elem_of_app. by left.
Qed.

(** The loop of [post], from any map whose keys are the texts of its values. *)
Lemma postLoop_inv m Q :
  Forall (fun e => text e.2 = e.1) m →
  let m' := foldl (fun m q =>
                     match mapGet (text q) m with
                     | Some _ => m
                     | None => mapSet (text q) (serverRecord q) m
                     end) m Q in
  m'.*1 = foldl setAdd (m.*1) (text <$> Q)
  ∧ Forall (fun e => text e.2 = e.1) m'
  ∧ (∀ k, k ∈ m.*1 → k ∈ m'.*1)
  ∧ ∀ v, v ∈ m'.*2 →
      v ∈ m.*2 ∨ ∃ p, p ∈ Q ∧ v = serverRecord p ∧ text p ∉ m.*1.
Proof.
  revert m. induction Q as [|q Q IH]; intros m Hm; cbn zeta.
  - cbn. repeat split; eauto.
  - cbn [foldl fmap list_fmap].
    destruct (mapGet (text q) m) as [old|] eqn:Hget.
    + destruct (IH m Hm) as (Hk & Hkeyed & Hsub & Hval).
      assert (Hin : text q ∈ m.*1) by (apply mapGet_is_Some; by rewrite Hget).
      repeat split; [|done|done|].
      * assert (setAdd (m.*1) (text q) = m.*1) as ->; [|done].
        unfold setAdd. by rewrite decide_True.
      * intros v Hv. destruct (Hval v Hv) as [?|(p & Hp & -> & Hn)]; [by left|].
        right. exists p. split; [by right|done].
    + assert (Hout : text q ∉ m.*1).
      { intros H. apply mapGet_is_Some in H as [? ?]. congruence. }
      destruct (IH (mapSet (text q) (serverRecord q) m)) as (Hk & Hkeyed & Hsub & Hval).
      { by apply keyed_mapSet. }
      repeat split; [|done| |].
      * by rewrite Hk, keys_mapSet.
      * intros k Hin. apply Hsub. rewrite keys_mapSet. by apply setAdd_elem.
      * intros v Hv. destruct (Hval v Hv) as [Hv'|(p & Hp & -> & Hn)].
        -- apply values_mapSet in Hv' as [->|?]; [|by left].
           right. exists q. split; [by left|done].
        -- right. exists p. split; [by right|]. split; [done|].
           intros Hin. apply Hn. rewrite keys_mapSet. by apply setAdd_elem.
Qed.

End ServerSide.

(** X23.  When the server data lists every text once, accepting it leaves,
    for each server quote, its text and its category (or [Uncategorized]) in
    the first store entry with that text. *)
Theorem applyServerChanges_server_wins (qs sd : list quote) (sq : quote) :
  NoDup (text <$> sd) → sq ∈ sd →
  ∃ idx,
    Part000.findIndex (text sq) (Simulated.applyServerChanges qs sd) = Some idx
    ∧ Simulated.applyServerChanges qs sd !! idx
      = Some (mkQuote (text sq) (Some (orUncategorized (category sq)))).
Proof.
  intros Hnd Hsq.
  destruct (applyServerChanges_settled qs sd (text sq, sq))
    as (idx & q & Hf & Hq & ->); [|by exists idx].
  by apply mapGet_elem, mapGet_byText.
Qed.

Lemma applyServerChanges_server_wins_witness :
  ∃ idx,
    Part000.findIndex (text qAZ) (Simulated.applyServerChanges [qAX; qAY] [qBY; qAZ])
    = Some idx
    ∧ Simulated.applyServerChanges [qAX; qAY] [qBY; qAZ] !! idx
      = Some (mkQuote (text qAZ) (Some (orUncategorized (category qAZ)))).
Proof.
  apply (applyServerChanges_server_wins [qAX; qAY] [qBY; qAZ] qAZ).
  - vm_compute. repeat constructor; set_solver.
  - set_solver.
Defined.

(** X24.  After [post] the simulated server holds each text once: those it
    had, then the posted ones it lacked, in order of first appearance.  Every
    quote it holds is one it already had or the record of a posted quote whose
    text it lacked, so a post never changes a category on the server. *)
Theorem post_keeps_server_version (serverQuotes quotesArray : list quote) :
  text <$> Simulated.post serverQuotes quotesArray
  = setValues ((text <$> serverQuotes) ++ (text <$> quotesArray))
  ∧ NoDup (text <$> Simulated.post serverQuotes quotesArray)
  ∧ ∀ q, q ∈ Simulated.post serverQuotes quotesArray →
      q ∈ serverQuotes
      ∨ ∃ p, p ∈ quotesArray ∧ q = Simulated.serverRecord p
             ∧ text p ∉ text <$> serverQuotes.
Proof.
  unfold Simulated.post.
  destruct (postLoop_inv (Simulated.byText serverQuotes) quotesArray
              (keyed_byText serverQuotes)) as (Hk & Hkeyed & _ & Hval).
  cbn zeta in *.
  assert (Htexts : text <$> (foldl (fun m q =>
                     match Simulated.mapGet (text q) m with
                     | Some _ => m
                     | None => Simulated.mapSet (text q) (Simulated.serverRecord q) m
                     end) (Simulated.byText serverQuotes) quotesArray).*2
                   = setValues ((text <$> serverQuotes) ++ (text <$> quotesArray))).
  { rewrite keyed_texts by done. rewrite Hk, keys_byText.
    unfold setValues. by rewrite foldl_app. }
  split; [done|]. split; [rewrite Htexts; apply NoDup_setValues|].
  intros q Hq. destruct (Hval q Hq) as [Hin|(p & Hp & -> & Hn)].
  - left. by apply values_byText.
  - right. exists p. split; [done|]. split; [done|].
    by rewrite keys_byText, elem_of_setValues in Hn.
Qed.

(** ** What the pass leaves for the detached loop, and what it settles *)

Lemma filter_insert_rejected {A} (P : A → Prop) `{!∀ x, Decision (P x)}
    (l : list A) (i : nat) (x y : A) :
  l !! i = Some y → ¬ P x → ¬ P y → filter P (<[i := x]> l) = filter P l.
Proof.
  revert i. induction l as [|a l IH]; intros [|i] Hy Hx Hny; try done.
  - cbn in Hy. injection Hy as ->.
    change (<[0 := x]> (y :: l)) with (x :: l).
    by rewrite !filter_cons, !decide_False.
  - change (<[S i := x]> (a :: l)) with (a :: <[i := x]> l).
    rewrite !filter_cons. by rewrite (IH i).
Qed.

Lemma mergeLoop_localOnly (qs rs done : list quote) (d : Details) :
  (∀ r, r ∈ done → r ∈ rs) →
  localOnly (mergeLoop (buildLocalMap qs) (qs, d) done).1 rs = localOnly qs rs.
Proof.
  induction done as [|r done IH] using rev_ind; intros Hsub; [done|].
  rewrite mergeLoop_snoc.
  assert (Hr : r ∈ rs) by (apply Hsub, elem_of_app; right; by left).
  assert (IH' := IH (fun x Hx => Hsub x (proj2 (elem_of_app _ _ x) (or_introl Hx)))).
  pose proof (mergeLoop_keys_prefix (buildLocalMap qs) qs d done) as [rest Hpre].
  destruct (mergeLoop (buildLocalMap qs) (qs, d) done) as [quotes d'].
  cbn [fst] in *.
  assert (Hrej : ∀ q : quote, key q = key r →
                      ¬ ¬ Exists (fun sq : quote => key sq = key q) rs).
  { intros q Hq Hn. apply Hn, Exists_exists. eauto. }
  unfold localOnly in *.
  destruct (applyServerQuote_cases (buildLocalMap qs) quotes d' r)
    as [?|idx ? HM Hi|idx q0 ? HM Hi ?|idx q0 ? HM Hi ?|? HM]; cbn [fst]; try done.
  - assert (Hq0 : key q0 = key r).
    { apply buildLocalMap_entry in HM as (qa & Hqa & Hka).
      assert (Hk : (key <$> quotes) !! idx = Some (key qa)).
      { rewrite Hpre, lookup_app_l, list_lookup_fmap, Hqa; [done|].
        rewrite length_fmap. by eapply lookup_lt_Some. }
      rewrite list_lookup_fmap, Hi in Hk. cbn in Hk. congruence. }
    rewrite <- IH'.
    apply (filter_insert_rejected _ _ _ _ q0); [done|by apply Hrej|by apply Hrej].
  - rewrite filter_app, filter_cons, decide_False by by apply Hrej.
    by rewrite filter_nil, app_nil_r.
Qed.

(** X25.  A pass does not change what the detached loop posts: the quotes it
    would push to the server after the pass are the local quotes whose
    normalized text the snapshot lacks, exactly as they were before it. *)
Theorem merge_preserves_localOnly (qs rs : list quote) :
  localOnly (store (mergeWithServer qs rs)) rs = localOnly qs rs.
Proof. rewrite store_mergeWithServer. by apply mergeLoop_localOnly. Qed.

(** X26.  After a pass over a snapshot whose records agree wherever they
    share a non-empty normalized text, the entry the local map of the new
    store holds for a record's text carries that record's category. *)
Theorem merge_server_wins (qs rs : list quote) (r : quote) :
  consistent rs → r ∈ rs → key r ≠ "" →
  ∃ idx q,
    buildLocalMap (store (mergeWithServer qs rs)) !! key r = Some idx
    ∧ store (mergeWithServer qs rs) !! idx = Some q
    ∧ key q = key r
    ∧ orUncategorized (category q) = orUncategorized (category r).
Proof.
  intros Hcons Hr Hk. rewrite store_mergeWithServer.
  destruct (passInv_loop qs rs (mkDetails 0 0 0) Hcons) as [_ Hset].
  destruct (Hset r Hr Hk) as (idx & q & HM & Hq & Hc).
  exists idx, q. repeat split; try done.
  apply buildLocalMap_entry in HM as (q' & Hq' & Hk'). congruence.
Qed.

Lemma merge_server_wins_witness :
  ∃ idx q,
    buildLocalMap (store (mergeWithServer [qAX; qAY] [qAZ; qBY])) !! key qAZ = Some idx
    ∧ store (mergeWithServer [qAX; qAY] [qAZ; qBY]) !! idx = Some q
    ∧ key q = key qAZ
    ∧ orUncategorized (category q) = orUncategorized (category qAZ).
Proof.
  apply (merge_server_wins [qAX; qAY] [qAZ; qBY] qAZ).
  - unfold consistent, agree. repeat constructor; vm_compute; congruence.
  - set_solver.
  - vm_compute. discriminate.
Defined.

(** ** The timers of the variant with a simulated server *)

Lemma startPeriodicSync_live (intervalMs : N) (s : PeriodicState) :
  (∀ id, syncIntervalId s = Some id → (id < nextHandle s)%positive) →
  (∀ id, serverUpdateIntervalId s = Some id → (id < nextHandle s)%positive) →
  (∀ id, syncIntervalId s = Some id → serverUpdateIntervalId s ≠ Some id) →
  liveTimers (startPeriodicSync intervalMs s).2
    (option_list (syncIntervalId s) ++ option_list (serverUpdateIntervalId s))
  = [nextHandle s; Pos.succ (nextHandle s)].
Proof.
  assert (Hkeep : ∀ (x y : positive) l, x ≠ y →
            filter (fun z => z ≠ y) (x :: l) = x :: filter (fun z => z ≠ y) l).
  { intros x y l Hxy. by rewrite filter_cons, decide_True. }
  assert (Hdrop : ∀ (y : positive) l,
            filter (fun z => z ≠ y) (y :: l) = filter (fun z => z ≠ y) l).
  { intros y l. by rewrite filter_cons, decide_False by (by intros H; apply H). }
  destruct s as [[a|] [b|] h]; cbn [syncIntervalId serverUpdateIntervalId nextHandle];
    intros Ha Hb Hab;
    cbn [startPeriodicSync syncIntervalId serverUpdateIntervalId nextHandle
         snd app liveTimers option_list].
  - specialize (Ha _ eq_refl). specialize (Hb _ eq_refl). specialize (Hab _ eq_refl).
    change (option_list (Some a) ++ option_list (Some b)) with [a; b].
    rewrite Hdrop, Hkeep, filter_nil by congruence. cbn [app].
    rewrite Hdrop, Hkeep, filter_nil by lia. done.
  - change (option_list (Some a) ++ option_list None) with [a].
    rewrite Hdrop, filter_nil. done.
  - specialize (Hb _ eq_refl).
    change (option_list None ++ option_list (Some b)) with [b]. cbn [app].
    rewrite Hdrop, Hkeep, filter_nil by lia. done.
  - done.
Qed.

(** X27.  However often [startPeriodicSync] is called, exactly two interval
    timers are running afterwards, the ones [syncIntervalId] and
    [serverUpdateIntervalId] hold; every earlier one has been cleared. *)
Theorem periodic_sync_two_timers (ms : list N) (intervalMs : N) (h : positive) :
  let r := periodicCalls (intervalMs :: ms) (mkPeriodicState None None h) in
  ∃ a b, syncIntervalId r.1 = Some a ∧ serverUpdateIntervalId r.1 = Some b
         ∧ a ≠ b ∧ liveTimers r.2 [] = [a; b].
Proof.
  cbn zeta.
  assert (Hgen : ∀ ms s live,
    live = option_list (syncIntervalId s) ++ option_list (serverUpdateIntervalId s) →
    (∀ id, syncIntervalId s = Some id → (id < nextHandle s)%positive) →
    (∀ id, serverUpdateIntervalId s = Some id → (id < nextHandle s)%positive) →
    (∀ id, syncIntervalId s = Some id → serverUpdateIntervalId s ≠ Some id) →
    liveTimers (periodicCalls ms s).2 live
    = option_list (syncIntervalId (periodicCalls ms s).1)
      ++ option_list (serverUpdateIntervalId (periodicCalls ms s).1)
    ∧ (ms ≠ [] → ∃ a b, syncIntervalId (periodicCalls ms s).1 = Some a
                         ∧ serverUpdateIntervalId (periodicCalls ms s).1 = Some b
                         ∧ a ≠ b)).
  { clear. induction ms as [|m ms IH]; intros s live -> Ha Hb Hab; [done|].
    cbn [periodicCalls].
    pose proof (startPeriodicSync_live m s Ha Hb Hab) as Hlive.
    destruct (startPeriodicSync m s) as [s1 es1] eqn:Hs1.
    assert (Hst : s1 = mkPeriodicState (Some (nextHandle s))
                         (Some (Pos.succ (nextHandle s)))
                         (Pos.succ (Pos.succ (nextHandle s))))
      by (unfold startPeriodicSync in Hs1; congruence).
    cbn [snd] in Hlive.
    destruct (IH s1 [nextHandle s; Pos.succ (nextHandle s)]) as [IH1 IH2].
    { by rewrite Hst. }
    { rewrite Hst. cbn. intros id [= <-]. lia. }
    { rewrite Hst. cbn. intros id [= <-]. lia. }
    { rewrite Hst. cbn. intros id [= <-] [= H]. lia. }
    destruct (periodicCalls ms s1) as [s2 es2] eqn:Hs2. cbn [fst snd] in *.
    rewrite liveTimers_app, Hlive. split; [done|]. intros _.
    destruct ms as [|m' ms'].
    - cbn in Hs2. injection Hs2 as <- <-. rewrite Hst. cbn.
      eexists _, _. repeat split. lia.
    - by apply IH2. }
  destruct (Hgen (intervalMs :: ms) (mkPeriodicState None None h) []) as [H1 H2];
    try done.
  destruct H2 as (a & b & Ha & Hb & Hab); [done|].
  exists a, b. rewrite H1, Ha, Hb. done.
Qed.

Lemma post_keeps_server_version_witness :
  qAX ∈ [qAX]
  ∨ ∃ p, p ∈ [qAY; qBY] ∧ qAX = Simulated.serverRecord p ∧ text p ∉ text <$> [qAX].
Proof.
  apply (proj2 (proj2 (post_keeps_server_version [qAX] [qAY; qBY])) qAX).
  vm_compute. by left.
Defined.
